(** * The gopcua client: session orchestration over a secure channel

    A shallow embedding of [client.go] (package [opcua]): the [Client]
    record, its atomic session holder, and the methods [Connect], [Dial],
    [Close], [Session], [CreateSession], [ActivateSession], [CloseSession],
    [closeSession], [DetachSession], [Send] and [GetEndpoints].

    Go's mutable receiver [c *Client] becomes explicit state passing in a
    small state-and-panic monad.  A Go [error] is an ordinary return value
    (an optional message); a Go panic is the exceptional outcome of the
    monad and keeps the state reached when it was raised.  The packages
    [uacp], [uasc], [crypto/rand] and [time] are outside this file's source:
    every interaction with them is recorded in a history and answered by an
    environment, which is an arbitrary function of that history. *)

From Stdlib Require Import ZArith List String Ascii Bool Lia DecimalString.
Import ListNotations.
Open Scope string_scope.

Set Implicit Arguments.

(** ** Data of package [ua] *)

Module ua.

(** A node identifier; [*ua.NodeID] is [option NodeID]. *)
Definition NodeID := Z.

Record SignatureData := {
  Algorithm : string;
  Signature : list Byte.byte
}.

(** The zero value [ua.SignatureData{}]. *)
Definition zeroSignatureData : SignatureData :=
  {| Algorithm := ""; Signature := [] |}.

Record ApplicationDescription := {
  ApplicationURI : string;
  ProductURI : string;
  ApplicationName : string
}.

(** The user identity token variants (an interface value in Go). *)
Inductive IdentityToken :=
| AnonymousIdentityToken (PolicyID : string)
| UserNameIdentityToken (PolicyID UserName : string) (Password : list Byte.byte)
| X509IdentityToken (PolicyID : string) (CertificateData : list Byte.byte)
| IssuedIdentityToken (PolicyID : string) (TokenData : list Byte.byte).

Record ExtensionObject := { Value : option IdentityToken }.

Definition NewExtensionObject (v : option IdentityToken) : ExtensionObject :=
  {| Value := v |}.

Record EndpointDescription := {
  EndpointURL : string;
  SecurityPolicyURI : string
}.

Record CreateSessionResponse := {
  SessionID : NodeID;
  AuthenticationToken : option NodeID;
  RevisedSessionTimeout : Z;
  ServerNonce : list Byte.byte
}.

Record GetEndpointsResponse := {
  Endpoints : list EndpointDescription
}.

(** The service requests the client builds.  [ServiceRequest] stands for
    any other request handed to [Send] by a caller. *)
Inductive Request :=
| CreateSessionRequest
    (ClientDescription : option ApplicationDescription)
    (EndpointURL SessionName : string)
    (ClientNonce ClientCertificate : list Byte.byte)
| ActivateSessionRequest
    (ClientSignature : option SignatureData)
    (ClientSoftwareCertificates : list (list Byte.byte))
    (LocaleIDs : list string)
    (UserIdentityToken : ExtensionObject)
    (UserTokenSignature : option SignatureData)
| CloseSessionRequest (DeleteSubscriptions : bool)
| GetEndpointsRequest (EndpointURL : string)
| ServiceRequest (typeID : Z) (body : list Byte.byte).

(** The dynamically typed value [v interface{}] a response handler
    receives.  [OtherResponse] carries the [%T] rendering of its type. *)
Inductive Response :=
| PCreateSessionResponse (r : CreateSessionResponse)
| PActivateSessionResponse (ServerNonce : list Byte.byte)
| PCloseSessionResponse
| PGetEndpointsResponse (r : GetEndpointsResponse)
| OtherResponse (goType : string).

(** What [fmt]'s [%T] prints for a response. *)
Definition typeName (v : Response) : string :=
  match v with
  | PCreateSessionResponse _ => "*ua.CreateSessionResponse"
  | PActivateSessionResponse _ => "*ua.ActivateSessionResponse"
  | PCloseSessionResponse => "*ua.CloseSessionResponse"
  | PGetEndpointsResponse _ => "*ua.GetEndpointsResponse"
  | OtherResponse t => t
  end.

End ua.

(** ** Data of package [uasc] *)

Module uasc.

Record Config := {
  SecurityPolicyURI : string;
  SecurityMode : Z;
  Certificate : list Byte.byte;
  PrivateKey : list Byte.byte;
  Lifetime : Z;
  RequestID : Z
}.

Record SessionConfig := {
  ClientDescription : option ua.ApplicationDescription;
  LocaleIDs : list string;
  UserIdentityToken : option ua.IdentityToken;
  UserTokenSignature : option ua.SignatureData
}.

(** Modelled from the spec: [uasc.NewClientConfigSecurityNone], whose code
    is not part of the source at hand.  The defaults are policy [#None],
    mode None, no certificate, the given lifetime and request id. *)
Definition NewClientConfigSecurityNone (reqID lifetime : Z) : Config :=
  {| SecurityPolicyURI := "http://opcfoundation.org/UA/SecurityPolicy#None";
     SecurityMode := 1;
     Certificate := [];
     PrivateKey := [];
     Lifetime := lifetime;
     RequestID := reqID |}.

(** Modelled from the spec: [uasc.NewClientSessionConfig], whose code is
    not part of the source at hand.  It keeps the locale list and the
    identity token it is given. *)
Definition NewClientSessionConfig
    (locales : list string) (tok : ua.IdentityToken) : SessionConfig :=
  {| ClientDescription := None;
     LocaleIDs := locales;
     UserIdentityToken := Some tok;
     UserTokenSignature := Some ua.zeroSignatureData |}.

End uasc.

(** ** Errors *)

(** A Go [error]: [None] is [nil], [Some msg] an error with that message. *)
Definition error := option string.

Definition errAlreadyConnected : string := "already connected".
Definition errChannelAlreadyConnected : string := "secure channel already connected".
Definition errChannelNotConnected : string := "secure channel not connected".

(** The run-time panics the client can raise. *)
Definition panicNilDeref : string :=
  "runtime error: invalid memory address or nil pointer dereference".
Definition panicNilAssert : string :=
  "interface conversion: interface {} is nil, not *opcua.Session".
Definition panicStoreNil : string :=
  "sync/atomic: store of nil value into Value".

(** ** Sessions and the client record *)

(** A [*Session] is an optional heap address. *)
Definition addr := nat.
Definition SessionPtr := option addr.

(** [type Session struct]: every field is a pointer. *)
Record Session := {
  cfg : option uasc.SessionConfig;
  resp : option ua.CreateSessionResponse;
  mySignature : option ua.SignatureData;
  signatureToSend : option ua.SignatureData
}.

(** The zero value [Session{}], the only one a caller outside the package
    can build by hand (the fields are unexported); it can also copy an
    existing value, see [copySession]. *)
Definition zeroSession : Session :=
  {| cfg := None; resp := None; mySignature := None; signatureToSend := None |}.

Module atomic.

(** The content of an [atomic.Value] that only ever holds [*Session]:
    the nil interface (nothing stored yet), or a typed pointer, itself
    possibly nil. *)
Inductive iface :=
| NilIface
| OfSessionPtr (p : SessionPtr).

Definition Value := iface.

End atomic.

Module sync.

(** [sync.Once]: whether [Do] has already run its function. *)
Definition Once := bool.

End sync.

(** [type Client struct].  A [*uasc.SecureChannel] is the optional
    identifier of the channel object. *)
Record Client := {
  EndpointURL : string;
  Config : option uasc.Config;
  SessionConfig : option uasc.SessionConfig;
  sechan : option nat;
  session : atomic.Value;
  once : sync.Once
}.

(** [&Client{EndpointURL: ..., Config: ..., SessionConfig: ...}]. *)
Definition newClient (url : string) (cf : option uasc.Config)
    (scf : option uasc.SessionConfig) : Client :=
  {| EndpointURL := url; Config := cf; SessionConfig := scf;
     sechan := None; session := atomic.NilIface; once := false |}.

(** ** The world around the client *)

(** Every interaction with the outside, in the order it happened. *)
Inductive Event :=
| EvDial (endpoint : string)
| EvConnClose (conn : nat)
| EvNewSecureChannel (endpoint : string) (conn : nat) (cf : uasc.Config)
| EvOpen (ch : nat)
| EvSend (ch : nat) (req : ua.Request) (authToken : option ua.NodeID)
| EvChanClose (ch : nat)
| EvRandRead (n : nat)
| EvNow.

(** What the secure channel does with a request: the exchange fails and the
    error is surfaced, or a decoded response reaches the handler. *)
Inductive Outcome :=
| Fail (e : string)
| Deliver (v : ua.Response).

(** The environment answers each interaction from the history so far (the
    interaction being answered is its last entry). *)
Record Env := {
  seed : Z;
  uacp_Dial_result : list Event -> error;
  NewSecureChannel_result : list Event -> error;
  Open_result : list Event -> error;
  Send_result : list Event -> Outcome;
  chan_Close_result : list Event -> error;
  conn_Close_result : list Event -> error;
  rand_Read_result : list Event -> string + list Byte.byte;
  now_UnixNano : list Event -> Z
}.

(** The state a call runs in: the client, the sessions allocated so far,
    the history, and (ghost) the addresses [CreateSession] has returned. *)
Record State := {
  cl : Client;
  heap : list Session;
  history : list Event;
  returned : list addr
}.

Definition initState (c : Client) : State :=
  {| cl := c; heap := []; history := []; returned := [] |}.

(** ** The monad *)

Inductive Res (A : Type) :=
| Ret (a : A) (s : State)
| Panic (msg : string) (s : State).

Arguments Panic {A} msg s.

Definition M (A : Type) := State -> Res A.

Definition ret {A} (a : A) : M A := fun s => Ret a s.

Definition bind {A B} (m : M A) (k : A -> M B) : M B :=
  fun s => match m s with
           | Ret a s' => k a s'
           | Panic msg s' => Panic msg s'
           end.

Definition panic {A} (msg : string) : M A := fun s => Panic msg s.

Definition gets {A} (f : State -> A) : M A := fun s => Ret (f s) s.

Definition modify (f : State -> State) : M unit := fun s => Ret tt (f s).

Notation "x <- m ;; k" := (bind m (fun x => k))
  (at level 61, m at next level, right associativity).
Notation "m ;;; k" := (bind m (fun _ => k))
  (at level 61, right associativity).

(** The state a computation ends in, whether it returned or panicked. *)
Definition finalState {A} (r : Res A) : State :=
  match r with Ret _ s => s | Panic _ s => s end.

(** ** State access *)

Definition withClient (f : Client -> Client) (s : State) : State :=
  {| cl := f (cl s); heap := heap s; history := history s;
     returned := returned s |}.

Definition setSechan (ch : option nat) (c : Client) : Client :=
  {| EndpointURL := EndpointURL c; Config := Config c;
     SessionConfig := SessionConfig c; sechan := ch;
     session := session c; once := once c |}.

Definition setSession (v : atomic.Value) (c : Client) : Client :=
  {| EndpointURL := EndpointURL c; Config := Config c;
     SessionConfig := SessionConfig c; sechan := sechan c;
     session := v; once := once c |}.

Definition setOnce (b : sync.Once) (c : Client) : Client :=
  {| EndpointURL := EndpointURL c; Config := Config c;
     SessionConfig := SessionConfig c; sechan := sechan c;
     session := session c; once := b |}.

(** Record one interaction with the outside. *)
Definition emit (e : Event) : M unit :=
  modify (fun s => {| cl := cl s; heap := heap s;
                      history := history s ++ [e];
                      returned := returned s |}).

(** [&Session{...}]: a fresh object at the next free address. *)
Definition alloc (x : Session) : M addr :=
  fun s => Ret (List.length (heap s))
               {| cl := cl s; heap := heap s ++ [x];
                  history := history s; returned := returned s |}.

(** Reading through a [*Session].  Go has no dangling pointers; an address
    outside the heap is treated like nil. *)
Definition deref (a : addr) : M Session :=
  fun s => match nth_error (heap s) a with
           | Some x => Ret x s
           | None => Panic panicNilDeref s
           end.

(** Ghost: remember a non-nil pointer handed back by [CreateSession]. *)
Definition noteReturned (p : SessionPtr) : M unit :=
  match p with
  | None => ret tt
  | Some a => modify (fun s => {| cl := cl s; heap := heap s;
                                  history := history s;
                                  returned := a :: returned s |})
  end.

(** ** [sync/atomic] and [sync] *)

(** [atomic.Value.Store]: storing the nil interface panics; anything else
    replaces the content (a single concrete type is ever stored here). *)
Definition atomic_Store (v : atomic.Value) (val : atomic.iface)
  : string + atomic.Value :=
  match val with
  | atomic.NilIface => inl panicStoreNil
  | atomic.OfSessionPtr p => inr (atomic.OfSessionPtr p)
  end.

(** [atomic.Value.Load]: the nil interface until the first [Store]. *)
Definition atomic_Load (v : atomic.Value) : atomic.iface := v.

(** [c.session.Store(val)]. *)
Definition session_Store (val : atomic.iface) : M unit :=
  fun s => match atomic_Store (session (cl s)) val with
           | inl msg => Panic msg s
           | inr v' => Ret tt (withClient (setSession v') s)
           end.

(** [c.once.Do(f)]: [f] runs on the first call only; the call counts as
    done even when [f] panics. *)
Definition once_Do (f : M unit) : M unit :=
  fun s => if once (cl s) then Ret tt s
           else match f s with
                | Ret _ s' => Ret tt (withClient (setOnce true) s')
                | Panic msg s' => Panic msg (withClient (setOnce true) s')
                end.

(** ** The client's methods *)

Definition uint32 (z : Z) : Z := z mod 2 ^ 32.

(** [fmt.Sprintf("%d", n)]. *)
Definition sprintd (n : Z) : string := NilZero.string_of_int (Z.to_int n).

(** [[]byte] of length [n], filled from [bs] (zero where [bs] is short). *)
Definition fillBytes (n : nat) (bs : list Byte.byte) : list Byte.byte :=
  firstn n (bs ++ repeat Byte.x00 n).

Definition DefaultSessionConfig : uasc.SessionConfig :=
  uasc.NewClientSessionConfig ["en-US"]
    (ua.AnonymousIdentityToken "open62541-anonymous-policy").

Section WithEnv.

Variable env : Env.

(** [uasc.NewClientConfigSecurityNone(uint32(mrand.Int31()), 3600000)]. *)
Definition DefaultClientConfig : uasc.Config :=
  uasc.NewClientConfigSecurityNone (uint32 (seed env mod 2 ^ 31)) 3600000.

(** *** The outside: [uacp], [uasc], [crypto/rand], [time] *)

(** [uacp.Dial(ctx, endpoint)]: a new connection or an error. *)
Definition uacp_Dial (endpoint : string) : M (option nat * error) :=
  emit (EvDial endpoint) ;;;
  h <- gets history ;;
  match uacp_Dial_result env h with
  | Some e => ret (None, Some e)
  | None => ret (Some (List.length h), None)
  end.

(** [conn.Close()]. *)
Definition conn_Close (conn : nat) : M error :=
  emit (EvConnClose conn) ;;;
  h <- gets history ;;
  ret (conn_Close_result env h).

(** [uasc.NewSecureChannel(endpoint, conn, cfg)]. *)
Definition NewSecureChannel (endpoint : string) (conn : nat)
    (cf : uasc.Config) : M (option nat * error) :=
  emit (EvNewSecureChannel endpoint conn cf) ;;;
  h <- gets history ;;
  match NewSecureChannel_result env h with
  | Some e => ret (None, Some e)
  | None => ret (Some conn, None)
  end.

(** [sechan.Open()]. *)
Definition sechan_Open (ch : nat) : M error :=
  emit (EvOpen ch) ;;;
  h <- gets history ;;
  ret (Open_result env h).

(** [sechan.Close()]; a nil channel pointer is dereferenced. *)
Definition sechan_Close (ch : option nat) : M error :=
  match ch with
  | None => panic panicNilDeref
  | Some id =>
      emit (EvChanClose id) ;;;
      h <- gets history ;;
      ret (chan_Close_result env h)
  end.

(** Modelled from the spec: [uasc.SecureChannel.Send(req, authToken, h)],
    whose code is not part of the source at hand.  The request goes out
    with the given token; then either the exchange fails and the error is
    surfaced without the handler running, or the decoded response is given
    to the handler and the handler's error is what [Send] returns.  The
    handler is a closure: [L] is the type of the local variable it
    captures, [l0] that variable's value if the handler never runs.  A
    nil channel pointer is dereferenced. *)
Definition sechan_Send {L : Type} (ch : option nat) (req : ua.Request)
    (authToken : option ua.NodeID)
    (h : ua.Response -> M (L * error)) (l0 : L) : M (L * error) :=
  match ch with
  | None => panic panicNilDeref
  | Some id =>
      emit (EvSend id req authToken) ;;;
      hist <- gets history ;;
      match Send_result env hist with
      | Fail e => ret (l0, Some e)
      | Deliver v => h v
      end
  end.

(** [rand.Read(buf)] on a buffer of [n] bytes. *)
Definition rand_Read (n : nat) : M (string + list Byte.byte) :=
  emit (EvRandRead n) ;;;
  h <- gets history ;;
  match rand_Read_result env h with
  | inl e => ret (inl e)
  | inr bs => ret (inr (fillBytes n bs))
  end.

(** [time.Now().UnixNano()]. *)
Definition time_Now_UnixNano : M Z :=
  emit EvNow ;;;
  h <- gets history ;;
  ret (now_UnixNano env h).

(** *** [func (c *Client) Session() *Session] *)
Definition GetSession : M SessionPtr :=
  v <- gets (fun s => atomic_Load (session (cl s))) ;;
  match v with
  | atomic.NilIface => panic panicNilAssert
  | atomic.OfSessionPtr p => ret p
  end.

(** *** [func (c *Client) Send(req, h) error] *)
Definition Send {L : Type} (req : ua.Request)
    (h : ua.Response -> M (L * error)) (l0 : L) : M (L * error) :=
  s <- GetSession ;;
  authToken <-
    match s with
    | None => ret None
    | Some a =>
        sv <- deref a ;;
        match resp sv with
        | None => panic panicNilDeref
        | Some r => ret (ua.AuthenticationToken r)
        end
    end ;;
  ch <- gets (fun s => sechan (cl s)) ;;
  sechan_Send ch req authToken h l0.

(** *** [func (c *Client) closeSession(s *Session) error] *)
Definition closeSession (s : SessionPtr) : M error :=
  match s with
  | None => ret None
  | Some _ =>
      let req := ua.CloseSessionRequest true in
      r <- Send req
             (fun v =>
                match v with
                | ua.PCloseSessionResponse => ret (tt, None)
                | _ => ret (tt, Some ("invalid response. Got "
                                      ++ ua.typeName v
                                      ++ ", want ActivateSessionResponse"))
                end) tt ;;
      ret (snd r)
  end.

(** *** [func (c *Client) CloseSession() error] *)
Definition CloseSession : M error :=
  s <- GetSession ;;
  e <- closeSession s ;;
  match e with
  | Some err => ret (Some err)
  | None =>
      session_Store (atomic.OfSessionPtr None) ;;;
      ret None
  end.

(** *** [func (c *Client) DetachSession()], returning a [*Session] and an [error] *)
Definition DetachSession : M (SessionPtr * error) :=
  s <- GetSession ;;
  session_Store atomic.NilIface ;;;
  ret (s, None).

(** *** [func (c *Client) CreateSession(cfg)], returning a [*Session] and an [error] *)
Definition CreateSession (scf : option uasc.SessionConfig)
  : M (SessionPtr * error) :=
  c <- gets cl ;;
  match sechan c with
  | None => ret (None, Some errChannelNotConnected)
  | Some _ =>
      let scf := match scf with
                 | None => DefaultSessionConfig
                 | Some x => x
                 end in
      let clientCert := match Config c with
                        | Some cf => uasc.Certificate cf
                        | None => []
                        end in
      r <- rand_Read 32 ;;
      match r with
      | inl e => ret (None, Some e)
      | inr nonce =>
          t <- time_Now_UnixNano ;;
          let req := ua.CreateSessionRequest
                       (uasc.ClientDescription scf)
                       (EndpointURL c)
                       ("gopcua-" ++ sprintd t)
                       nonce
                       clientCert in
          r <- sechan_Send (sechan c) req None
                 (fun v =>
                    match v with
                    | ua.PCreateSessionResponse rsp =>
                        s <- alloc {| cfg := Some scf;
                                      resp := Some rsp;
                                      mySignature := Some ua.zeroSignatureData;
                                      signatureToSend := Some ua.zeroSignatureData |} ;;
                        ret (Some s, None)
                    | _ => ret (None, Some ("invalid response. Got "
                                            ++ ua.typeName v
                                            ++ ", want CreateSessionResponse"))
                    end) None ;;
          noteReturned (fst r) ;;;
          ret r
      end
  end.

(** *** [func (c *Client) ActivateSession(s *Session) error] *)
Definition ActivateSession (s : SessionPtr) : M error :=
  match s with
  | None => panic panicNilDeref
  | Some a =>
      sv <- deref a ;;
      match cfg sv with
      | None => panic panicNilDeref
      | Some scf =>
          let req := ua.ActivateSessionRequest
                       (signatureToSend sv)
                       []
                       (uasc.LocaleIDs scf)
                       (ua.NewExtensionObject (uasc.UserIdentityToken scf))
                       (uasc.UserTokenSignature scf) in
          ch <- gets (fun st => sechan (cl st)) ;;
          match resp sv with
          | None => panic panicNilDeref
          | Some rsp =>
              r <- sechan_Send ch req (ua.AuthenticationToken rsp)
                     (fun v =>
                        match v with
                        | ua.PActivateSessionResponse _ =>
                            e <- CloseSession ;;
                            match e with
                            | Some err =>
                                closeSession s ;;;
                                ret (tt, Some err)
                            | None =>
                                session_Store (atomic.OfSessionPtr s) ;;;
                                ret (tt, None)
                            end
                        | _ => ret (tt, Some ("invalid response. Got "
                                              ++ ua.typeName v
                                              ++ ", want ActivateSessionResponse"))
                        end) tt ;;
              ret (snd r)
          end
      end
  end.

(** *** [func (c *Client) Dial(cfg *uasc.Config) error] *)
Definition Dial (cf : option uasc.Config) : M error :=
  once_Do (session_Store (atomic.OfSessionPtr None)) ;;;
  c <- gets cl ;;
  match sechan c with
  | Some _ => ret (Some errChannelAlreadyConnected)
  | None =>
      d <- uacp_Dial (EndpointURL c) ;;
      match d with
      | (Some conn, None) =>
          let cf := match cf with
                    | None => DefaultClientConfig
                    | Some x => x
                    end in
          n <- NewSecureChannel (EndpointURL c) conn cf ;;
          match n with
          | (Some ch, None) =>
              e <- sechan_Open ch ;;
              match e with
              | Some err => conn_Close conn ;;; ret (Some err)
              | None =>
                  modify (withClient (setSechan (Some ch))) ;;;
                  ret None
              end
          | (_, err) => conn_Close conn ;;; ret err
          end
      | (_, err) => ret err
      end
  end.

(** *** [func (c *Client) Close() error] *)
Definition Close : M error :=
  CloseSession ;;;
  ch <- gets (fun s => sechan (cl s)) ;;
  sechan_Close ch.

(** *** [func (c *Client) Connect() (err error)] *)
Definition Connect : M error :=
  c <- gets cl ;;
  match sechan c with
  | Some _ => ret (Some errAlreadyConnected)
  | None =>
      e <- Dial (Config c) ;;
      match e with
      | Some err => ret (Some err)
      | None =>
          r <- CreateSession (SessionConfig c) ;;
          match r with
          | (s, None) =>
              e <- ActivateSession s ;;
              match e with
              | Some err => Close ;;; ret (Some err)
              | None => ret None
              end
          | (_, Some err) => Close ;;; ret (Some err)
          end
      end
  end.

(** *** [func (c *Client) GetEndpoints()], returning the response and an [error] *)
Definition GetEndpoints : M (option ua.GetEndpointsResponse * error) :=
  c <- gets cl ;;
  let req := ua.GetEndpointsRequest (EndpointURL c) in
  Send req
    (fun v =>
       match v with
       | ua.PGetEndpointsResponse r => ret (Some r, None)
       | _ => ret (None, Some ("invalid response: " ++ ua.typeName v))
       end) None.

End WithEnv.

(** ** Programs over one client *)

(** What a caller outside the package can do with one client and the
    sessions obtained from it: call its methods, with any arguments it can
    form from them, and allocate a [Session] of its own, which is then the
    zero value.  A handler passed to [Send] is taken not to touch the
    client.  Copies of sessions and sessions of other clients are added by
    [Step]. *)
Inductive Call :=
| CallConnect
| CallDial (cf : option uasc.Config)
| CallClose
| CallSession
| CallCreateSession (scf : option uasc.SessionConfig)
| CallActivateSession (s : SessionPtr)
| CallCloseSession
| CallDetachSession
| CallSend (req : ua.Request) (h : ua.Response -> error)
| CallGetEndpoints
| CallNewSession.

(** Whether a call runs [Dial] on a client that has no channel yet. *)
Definition invokesDial (k : Call) : bool :=
  match k with
  | CallConnect | CallDial _ => true
  | _ => false
  end.

Section Programs.

Variable env : Env.

(** The state after one call; a panic is recovered by the caller and
    leaves the state it was raised in. *)
Definition exec (k : Call) (st : State) : State :=
  match k with
  | CallConnect => finalState (Connect env st)
  | CallDial cf => finalState (Dial env cf st)
  | CallClose => finalState (Close env st)
  | CallSession => finalState (GetSession st)
  | CallCreateSession scf => finalState (CreateSession env scf st)
  | CallActivateSession s => finalState (ActivateSession env s st)
  | CallCloseSession => finalState (CloseSession env st)
  | CallDetachSession => finalState (DetachSession st)
  | CallSend req h =>
      finalState (Send env req (fun v => ret (tt, h v)) tt st)
  | CallGetEndpoints => finalState (GetEndpoints env st)
  | CallNewSession => finalState (alloc zeroSession st)
  end.

Definition run (ks : list Call) (st : State) : State :=
  fold_left (fun s k => exec k s) ks st.

End Programs.

(** ** Concrete servers used in the examples *)

Module Examples.

Definition lastEvent (h : list Event) : option Event := last (map Some h) None.

(** A server that answers every request with the matching response; the
    authentication token of a new session is the length of the history. *)
Definition answer (h : list Event) : Outcome :=
  match lastEvent h with
  | Some (EvSend _ (ua.CreateSessionRequest _ _ _ _ _) _) =>
      Deliver (ua.PCreateSessionResponse
                 {| ua.SessionID := Z.of_nat (List.length h);
                    ua.AuthenticationToken := Some (Z.of_nat (List.length h));
                    ua.RevisedSessionTimeout := 60000;
                    ua.ServerNonce := [] |})
  | Some (EvSend _ (ua.ActivateSessionRequest _ _ _ _ _) _) =>
      Deliver (ua.PActivateSessionResponse [])
  | Some (EvSend _ (ua.CloseSessionRequest _) _) =>
      Deliver ua.PCloseSessionResponse
  | Some (EvSend _ (ua.GetEndpointsRequest url) _) =>
      Deliver (ua.PGetEndpointsResponse
                 {| ua.Endpoints :=
                      [ {| ua.EndpointURL := url;
                           ua.SecurityPolicyURI :=
                             "http://opcfoundation.org/UA/SecurityPolicy#None" |} ] |})
  | _ => Deliver (ua.OtherResponse "*ua.ServiceFault")
  end.

Definition goodEnv : Env :=
  {| seed := 7;
     uacp_Dial_result := fun _ => None;
     NewSecureChannel_result := fun _ => None;
     Open_result := fun _ => None;
     Send_result := answer;
     chan_Close_result := fun _ => None;
     conn_Close_result := fun _ => None;
     rand_Read_result := fun _ => inr [];
     now_UnixNano := fun _ => 1546300800000000000%Z |}.

(** The same server, except that every [CloseSessionRequest] fails. *)
Definition answerNoClose (h : list Event) : Outcome :=
  match lastEvent h with
  | Some (EvSend _ (ua.CloseSessionRequest _) _) => Fail "BadSessionNotActivated"
  | _ => answer h
  end.

Definition noCloseEnv : Env :=
  {| seed := 7;
     uacp_Dial_result := fun _ => None;
     NewSecureChannel_result := fun _ => None;
     Open_result := fun _ => None;
     Send_result := answerNoClose;
     chan_Close_result := fun _ => Some "EOF";
     conn_Close_result := fun _ => None;
     rand_Read_result := fun _ => inr [];
     now_UnixNano := fun _ => 1546300800000000000%Z |}.


Definition client0 : Client := newClient "opc.tcp://localhost:4840" None None.

Definition start : State := initState client0.

End Examples.

(** ** Notions used in the statements *)

(** The state with further events appended to its history. *)
Definition addEvents (evs : list Event) (s : State) : State :=
  {| cl := cl s; heap := heap s; history := history s ++ evs;
     returned := returned s |}.

(** The token [Send] reads off a session object. *)
Definition tokenOf (sv : Session) : option ua.NodeID :=
  match resp sv with
  | Some r => ua.AuthenticationToken r
  | None => None
  end.


(** The events a computation added to the history. *)
Definition added (st st' : State) (evs : list Event) : Prop :=
  history st' = (history st ++ evs)%list.

(** The handler of [closeSession]. *)
Definition closeHandler (v : ua.Response) : error :=
  match v with
  | ua.PCloseSessionResponse => None
  | _ => Some ("invalid response. Got " ++ ua.typeName v
               ++ ", want ActivateSessionResponse")
  end.

(** What one [CloseSessionRequest] exchange yields. *)
Definition closeResult (env : Env) (hist : list Event) : error :=
  match Send_result env hist with
  | Fail e => Some e
  | Deliver v => closeHandler v
  end.

Definition orDefault (scf : option uasc.SessionConfig) : uasc.SessionConfig :=
  match scf with
  | None => DefaultSessionConfig
  | Some x => x
  end.

(** The request [CreateSession] builds in state [st] once [rand.Read]
    gave [bs]. *)
Definition createRequest (env : Env) (scf : option uasc.SessionConfig)
    (st : State)
    (bs : list Byte.byte) : ua.Request :=
  ua.CreateSessionRequest
    (uasc.ClientDescription (orDefault scf))
    (EndpointURL (cl st))
    ("gopcua-"
     ++ sprintd (now_UnixNano env (history st ++ [EvRandRead 32; EvNow])))
    (fillBytes 32 bs)
    (match Config (cl st) with
     | Some cf => uasc.Certificate cf
     | None => []
     end).

(** The object the handler of [CreateSession] allocates. *)
Definition newSession (scf : option uasc.SessionConfig)
    (rsp : ua.CreateSessionResponse) : Session :=
  {| cfg := Some (orDefault scf);
     resp := Some rsp;
     mySignature := Some ua.zeroSignatureData;
     signatureToSend := Some ua.zeroSignatureData |}.

Definition createOutcome (env : Env) (scf : option uasc.SessionConfig)
    (ch : nat)
    (st : State) : Res (SessionPtr * error) :=
  match rand_Read_result env (history st ++ [EvRandRead 32]) with
  | inl e => Ret (None, Some e) (addEvents [EvRandRead 32] st)
  | inr bs =>
      let req := createRequest env scf st bs in
      let st3 := addEvents [EvRandRead 32; EvNow; EvSend ch req None] st in
      match Send_result env (history st3) with
      | Fail e => Ret (None, Some e) st3
      | Deliver (ua.PCreateSessionResponse rsp) =>
          Ret (Some (List.length (heap st)), None)
              {| cl := cl st;
                 heap := heap st ++ [newSession scf rsp];
                 history := history st3;
                 returned := List.length (heap st) :: returned st |}
      | Deliver v =>
          Ret (None, Some ("invalid response. Got " ++ ua.typeName v
                           ++ ", want CreateSessionResponse")) st3
      end
  end.

(** The request [ActivateSession] sends for the session at [a]; it
    carries that session's own token. *)
Definition activateEvent (ch : nat) (sv : Session)
    (scf : uasc.SessionConfig) (rsp : ua.CreateSessionResponse) : Event :=
  EvSend ch
    (ua.ActivateSessionRequest (signatureToSend sv) []
       (uasc.LocaleIDs scf)
       (ua.NewExtensionObject (uasc.UserIdentityToken scf))
       (uasc.UserTokenSignature scf))
    (ua.AuthenticationToken rsp).

(** The request that closes the session active before the call. *)
Definition closePriorEvent (ch : nat) (pr : ua.CreateSessionResponse)
  : Event :=
  EvSend ch (ua.CloseSessionRequest true) (ua.AuthenticationToken pr).

(** A client is undialed while its holder is uninitialised and it has no
    channel. *)
Definition undialed (st : State) : Prop :=
  session (cl st) = atomic.NilIface /\ sechan (cl st) = None.

(** ** A Hoare logic for the monad *)

(** From a state satisfying [P], [m] either returns [a] in a state
    satisfying [Q a], or panics in a state satisfying [E]. *)
Definition hoare {A} (P : State -> Prop) (m : M A)
    (Q : A -> State -> Prop) (E : State -> Prop) : Prop :=
  forall st, P st ->
    match m st with
    | Ret a st' => Q a st'
    | Panic _ st' => E st'
    end.

(** [m] keeps the property [P], whether it returns or panics. *)
Definition frames (P : State -> Prop) {A} (m : M A) : Prop :=
  hoare P m (fun _ => P) P.

(** ** The invariant of a client driven through its methods *)

(** [d] records that the holder is known to be initialised, [R0] a set of
    addresses known to have been returned by [CreateSession]; both are
    stable, which lets a fact learnt at one point be used later. *)
Record Inv (d : bool) (R0 : list addr) (st : State) : Prop := {
  inv_init : d = true -> session (cl st) <> atomic.NilIface;
  inv_once : once (cl st) = true -> session (cl st) <> atomic.NilIface;
  inv_chan : sechan (cl st) <> None -> session (cl st) <> atomic.NilIface;
  inv_active : forall a,
      session (cl st) = atomic.OfSessionPtr (Some a) -> In a (returned st);
  inv_returned : forall a,
      In a (returned st) ->
      exists sv, nth_error (heap st) a = Some sv
                 /\ cfg sv <> None /\ resp sv <> None;
  inv_foreign : forall a sv,
      nth_error (heap st) a = Some sv -> ~ In a (returned st) ->
      sv = zeroSession;
  inv_keep : incl R0 (returned st)
}.

(** [m] keeps the invariant, whether it returns or panics. *)
Definition keeps (d : bool) (R0 : list addr) {A} (m : M A) : Prop :=
  hoare (Inv d R0) m (fun _ => Inv d R0) (Inv d R0).

(** ** States used as concrete inputs *)

Module Inputs.

Import Examples.

(** A client after a successful [Connect]: channel 1, session 0 active
    with authentication token 6. *)
Definition connected : State := run goodEnv [CallConnect] start.

(** A client after a successful [Dial] only: channel 1, no session. *)
Definition dialed : State := run goodEnv [CallDial None] start.

(** A connected client holding a second, not yet activated session
    (address 1, token 10), talking to the server that fails every
    [CloseSessionRequest]. *)
Definition twoSessions : State :=
  run noCloseEnv [CallConnect; CallCreateSession None] start.

End Inputs.

(** ** Notions used in the further properties *)

(** A computation returns: it does not panic. *)
Definition returns {A} (r : Res A) : Prop :=
  match r with
  | Ret _ _ => True
  | Panic _ _ => False
  end.

(** The client holds channel [ch] and its state satisfies the invariant. *)
Definition connectedTo (ch : nat) (d : bool) (R0 : list addr) (st : State)
  : Prop :=
  Inv d R0 st /\ sechan (cl st) = Some ch.

(** From a state satisfying [P], [m] returns, in a state satisfying [P]. *)
Definition total (P : State -> Prop) {A} (m : M A) : Prop :=
  hoare P m (fun _ => P) (fun _ => False).

(** The last event of a history. *)
Definition finalEvent (h : list Event) : option Event :=
  last (map Some h) None.

(** The state [once.Do] leaves in [Dial]: on the first run the typed nil
    pointer is stored and [once] is done. *)
Definition afterOnce (st : State) : State :=
  if once (cl st) then st
  else withClient (setOnce true)
         (withClient (setSession (atomic.OfSessionPtr None)) st).

(** The configuration [Dial] hands to [uasc.NewSecureChannel]. *)
Definition dialConfig (env : Env) (cf : option uasc.Config) : uasc.Config :=
  match cf with
  | None => DefaultClientConfig env
  | Some x => x
  end.

(** Servers used as concrete inputs of the further properties. *)
Module Servers.

(** A network on which [uacp.Dial] fails. *)
Definition unreachable : Env :=
  {| seed := 7;
     uacp_Dial_result := fun _ => Some "connection refused";
     NewSecureChannel_result := fun _ => None;
     Open_result := fun _ => None;
     Send_result := Examples.answer;
     chan_Close_result := fun _ => None;
     conn_Close_result := fun _ => None;
     rand_Read_result := fun _ => inr [];
     now_UnixNano := fun _ => 0%Z |}.

(** A server that refuses to open a secure channel. *)
Definition noChannel : Env :=
  {| seed := 7;
     uacp_Dial_result := fun _ => None;
     NewSecureChannel_result := fun _ => None;
     Open_result := fun _ => Some "BadSecurityChecksFailed";
     Send_result := Examples.answer;
     chan_Close_result := fun _ => None;
     conn_Close_result := fun _ => None;
     rand_Read_result := fun _ => inr [];
     now_UnixNano := fun _ => 0%Z |}.

(** A server that answers every request with a service fault. *)
Definition faulty : Env :=
  {| seed := 7;
     uacp_Dial_result := fun _ => None;
     NewSecureChannel_result := fun _ => None;
     Open_result := fun _ => None;
     Send_result := fun _ => Deliver (ua.OtherResponse "*ua.ServiceFault");
     chan_Close_result := fun _ => None;
     conn_Close_result := fun _ => None;
     rand_Read_result := fun _ => inr [];
     now_UnixNano := fun _ => 0%Z |}.

End Servers.

(** [func GetEndpoints(endpoint string)], the package-level function: it
    works on a client of its own, [&Client{EndpointURL: endpoint}], which
    takes the client slot of the state; the deferred [c.Close()] runs after
    the results are computed, also when [res.Endpoints] dereferences nil. *)
Definition opcua_GetEndpoints (env : Env) (endpoint : string)
  : M (list ua.EndpointDescription * error) :=
  modify (fun s => {| cl := newClient endpoint None None; heap := heap s;
                      history := history s; returned := returned s |}) ;;;
  c <- gets cl ;;
  e <- Dial env (Config c) ;;
  match e with
  | Some err => ret ([], Some err)
  | None =>
      r <- GetEndpoints env ;;
      match r with
      | (_, Some err) => Close env ;;; ret ([], Some err)
      | (Some res, None) => Close env ;;; ret (ua.Endpoints res, None)
      | (None, None) => Close env ;;; panic panicNilDeref
      end
  end.

(** ** The request [Read] sends *)

(** [Client.Read] does not send the caller's request but a copy with
    defaults filled in.  The types [ua.ReadValueID], [ua.QualifiedName] and
    [ua.ReadRequest] and the constant [ua.AttributeIDValue] are declared
    outside the source at hand: the fields [Read] only copies ([Fields]), the
    qualified names with their zero value, the type of [MaxAge] and the
    constant are parameters. *)
Section ReadRequest.

Variable Fields : Type.
Variable QualifiedName : Type.
Variable zeroQualifiedName : QualifiedName.
Variable float64 : Type.
Variable AttributeIDValue : Z.

Record ReadValueID := {
  AttributeID : Z;
  DataEncoding : option QualifiedName;
  otherFields : Fields
}.

Record ReadRequest := {
  MaxAge : float64;
  TimestampsToReturn : Z;
  NodesToRead : list (option ReadValueID)
}.

(** The body of the loop: [rc] is a copy of [*rv] with the two defaults. *)
Definition withDefaults (rv : ReadValueID) : ReadValueID :=
  {| AttributeID := if (AttributeID rv =? 0)%Z then AttributeIDValue
                    else AttributeID rv;
     DataEncoding := match DataEncoding rv with
                     | None => Some zeroQualifiedName
                     | Some q => Some q
                     end;
     otherFields := otherFields rv |}.

(** The loop over [req.NodesToRead]; [None] is the panic of [*rc = *rv] on
    a nil entry. *)
Fixpoint cloneNodes (rvs : list (option ReadValueID))
  : option (list (option ReadValueID)) :=
  match rvs with
  | [] => Some []
  | None :: _ => None
  | Some rv :: rest =>
      match cloneNodes rest with
      | Some rest' => Some (Some (withDefaults rv) :: rest')
      | None => None
      end
  end.

(** The request [Read] passes to [Send]; [None] is a panic (a nil request
    or a nil entry). *)
Definition Read_request (req : option ReadRequest) : option ReadRequest :=
  match req with
  | None => None
  | Some r =>
      match cloneNodes (NodesToRead r) with
      | None => None
      | Some rvs =>
          Some {| MaxAge := MaxAge r;
                  TimestampsToReturn := TimestampsToReturn r;
                  NodesToRead := rvs |}
      end
  end.

End ReadRequest.

(** ** Whether the client's channel is still open *)



Module Closed.

Import Examples.





End Closed.

(** ** Callers that copy a session or bring one from another client *)



(** One step of a caller: a method call on the client, a copy of a
    session, or a session obtained from another client. *)
Inductive Step :=
| Method (k : Call)
| CopySession (s : SessionPtr)
| ForeignSession (scf : option uasc.SessionConfig)
    (rsp : ua.CreateSessionResponse).

Definition stepInvokesDial (x : Step) : bool :=
  match x with
  | Method k => invokesDial k
  | _ => false
  end.

(** The caller neither copies a session nor brings one from elsewhere. *)
Definition ownSessionsOnly (x : Step) : bool :=
  match x with
  | Method _ => true
  | _ => false
  end.



(** The method calls among a caller's steps. *)
Fixpoint callsOf (xs : list Step) : list Call :=
  match xs with
  | [] => []
  | Method k :: xs' => k :: callsOf xs'
  | _ :: xs' => callsOf xs'
  end.




(** ** Equations of the methods *)

Lemma GetSession_eq st :
  GetSession st =
  match session (cl st) with
  | atomic.NilIface => Panic panicNilAssert st
  | atomic.OfSessionPtr p => Ret p st
  end.
Proof.
  unfold GetSession, bind, gets, atomic_Load.
  now destruct (session (cl st)).
Qed.

Section Equations.

Variable env : Env.

Lemma sechan_Send_eq (L : Type) ch req tok
    (h : ua.Response -> M (L * error)) l0 st :
  sechan_Send env (Some ch) req tok h l0 st =
  match Send_result env (history st ++ [EvSend ch req tok]) with
  | Fail e => Ret (l0, Some e) (addEvents [EvSend ch req tok] st)
  | Deliver v => h v (addEvents [EvSend ch req tok] st)
  end.
Proof.
  unfold sechan_Send, bind, emit, modify, gets; simpl.
  fold (addEvents [EvSend ch req tok] st).
  now destruct (Send_result env (history st ++ [EvSend ch req tok])).
Qed.

(** [Send] with no active session: the request goes out with a nil
    token. *)
Lemma Send_no_session (L : Type) req
    (h : ua.Response -> M (L * error)) l0 st :
  session (cl st) = atomic.OfSessionPtr None ->
  Send env req h l0 st = sechan_Send env (sechan (cl st)) req None h l0 st.
Proof.
  intros Hs. unfold Send, bind at 1. rewrite GetSession_eq, Hs.
  reflexivity.
Qed.

(** [Send] with an active session: the request goes out with that
    session's token. *)
Lemma Send_active_session (L : Type) req
    (h : ua.Response -> M (L * error)) l0 st a sv r :
  session (cl st) = atomic.OfSessionPtr (Some a) ->
  nth_error (heap st) a = Some sv ->
  resp sv = Some r ->
  Send env req h l0 st =
  sechan_Send env (sechan (cl st)) req (ua.AuthenticationToken r) h l0 st.
Proof.
  intros Hs Ha Hr. unfold Send, bind at 1. rewrite GetSession_eq, Hs.
  unfold bind, deref. rewrite Ha, Hr. reflexivity.
Qed.

(** [closeSession] on a non-nil pointer, by a client with a channel and an
    active session: one [CloseSessionRequest] goes out, and it carries the
    token of the ACTIVE session, whatever pointer was passed. *)
Lemma closeSession_eq st ch a sv r x :
  sechan (cl st) = Some ch ->
  session (cl st) = atomic.OfSessionPtr (Some a) ->
  nth_error (heap st) a = Some sv ->
  resp sv = Some r ->
  let ev := EvSend ch (ua.CloseSessionRequest true) (ua.AuthenticationToken r) in
  closeSession env (Some x) st =
  Ret (closeResult env (history st ++ [ev])) (addEvents [ev] st).
Proof.
  intros Hc Hs Ha Hr ev. unfold closeSession, bind at 1.
  rewrite (Send_active_session _ _ _ st Hs Ha Hr), Hc, sechan_Send_eq.
  fold ev. unfold closeResult, closeHandler.
  destruct (Send_result env (history st ++ [ev])) as [e|v]; [reflexivity|].
  now destruct v.
Qed.

(** [closeSession] on a non-nil pointer while no session is active: the
    request goes out with a nil token. *)
Lemma closeSession_no_active_eq st ch x :
  sechan (cl st) = Some ch ->
  session (cl st) = atomic.OfSessionPtr None ->
  let ev := EvSend ch (ua.CloseSessionRequest true) None in
  closeSession env (Some x) st =
  Ret (closeResult env (history st ++ [ev])) (addEvents [ev] st).
Proof.
  intros Hc Hs ev. unfold closeSession, bind at 1.
  rewrite (Send_no_session _ _ _ st Hs), Hc, sechan_Send_eq.
  fold ev. unfold closeResult, closeHandler.
  destruct (Send_result env (history st ++ [ev])) as [e|v]; [reflexivity|].
  now destruct v.
Qed.

Lemma CloseSession_no_active_eq st :
  session (cl st) = atomic.OfSessionPtr None ->
  CloseSession env st = Ret None st.
Proof.
  intros Hs. unfold CloseSession, bind at 1. rewrite GetSession_eq, Hs.
  unfold bind, closeSession, ret, session_Store, atomic_Store.
  destruct st as [c hp hi rt]; destruct c; simpl in *. now subst.
Qed.

Lemma CloseSession_active_eq st ch a sv r :
  sechan (cl st) = Some ch ->
  session (cl st) = atomic.OfSessionPtr (Some a) ->
  nth_error (heap st) a = Some sv ->
  resp sv = Some r ->
  let ev := EvSend ch (ua.CloseSessionRequest true) (ua.AuthenticationToken r) in
  CloseSession env st =
  match closeResult env (history st ++ [ev]) with
  | Some err => Ret (Some err) (addEvents [ev] st)
  | None => Ret None (withClient (setSession (atomic.OfSessionPtr None))
                        (addEvents [ev] st))
  end.
Proof.
  intros Hc Hs Ha Hr ev. unfold CloseSession, bind at 1.
  rewrite GetSession_eq, Hs. unfold bind at 1.
  rewrite (closeSession_eq st a Hc Hs Ha Hr). fold ev.
  now destruct (closeResult env (history st ++ [ev])).
Qed.

End Equations.

(** ** Rules of the Hoare logic *)

Lemma hoare_ret A (P : State -> Prop) (a : A) (Q : A -> State -> Prop) E :
  (forall st, P st -> Q a st) -> hoare P (ret a) Q E.
Proof. intros H st HP; simpl; auto. Qed.

Lemma hoare_panic A (P : State -> Prop) msg (Q : A -> State -> Prop)
    (E : State -> Prop) :
  (forall st, P st -> E st) -> hoare P (panic msg) Q E.
Proof. intros H st HP; simpl; auto. Qed.

Lemma hoare_gets A (P : State -> Prop) (f : State -> A)
    (Q : A -> State -> Prop) E :
  (forall st, P st -> Q (f st) st) -> hoare P (gets f) Q E.
Proof. intros H st HP; simpl; auto. Qed.

Lemma hoare_modify (P : State -> Prop) f (Q : unit -> State -> Prop) E :
  (forall st, P st -> Q tt (f st)) -> hoare P (modify f) Q E.
Proof. intros H st HP; simpl; auto. Qed.

Lemma hoare_bind A B (P : State -> Prop) (m : M A) (k : A -> M B)
    (Q : A -> State -> Prop) (R : B -> State -> Prop) E :
  hoare P m Q E -> (forall a, hoare (Q a) (k a) R E) ->
  hoare P (bind m k) R E.
Proof.
  intros Hm Hk st HP. unfold bind. specialize (Hm st HP).
  destruct (m st) as [a st'|msg st']; [now apply Hk | assumption].
Qed.

Lemma hoare_conseq A (P P' : State -> Prop) (m : M A)
    (Q Q' : A -> State -> Prop) (E E' : State -> Prop) :
  hoare P' m Q' E' ->
  (forall st, P st -> P' st) ->
  (forall a st, Q' a st -> Q a st) ->
  (forall st, E' st -> E st) ->
  hoare P m Q E.
Proof.
  intros H HP HQ HE st Hst. specialize (H st (HP st Hst)).
  destruct (m st); auto.
Qed.

(** Facts that were established before [m] runs and do not mention the
    state can be used while proving the triple. *)
Lemma hoare_pre A (P : State -> Prop) (m : M A) Q E :
  (forall st, P st -> hoare (fun st' => st' = st) m Q E) -> hoare P m Q E.
Proof. intros H st HP. now apply (H st HP st). Qed.

(** ** Properties of the invariant *)

Lemma Inv_init url cf scf : Inv false [] (initState (newClient url cf scf)).
Proof.
  constructor; simpl; try discriminate; try tauto.
  - intros a sv H. now destruct a.
  - intros a H; inversion H.
Qed.

Lemma Inv_forget d R0 a st : Inv d (a :: R0) st -> Inv d R0 st.
Proof.
  intros [? ? ? ? ? ? K]; constructor; auto.
  intros x Hx; apply K; now right.
Qed.

Lemma Inv_learn d R0 a st :
  Inv d R0 st -> In a (returned st) -> Inv d (a :: R0) st.
Proof.
  intros [? ? ? ? ? ? K] Ha; constructor; auto.
  intros x [<-|Hx]; auto.
Qed.

Lemma Inv_initialised d R0 st :
  Inv d R0 st -> session (cl st) <> atomic.NilIface -> Inv true R0 st.
Proof. intros [? ? ? ? ? ? ?] H; constructor; auto. Qed.

(** An object with a configuration is one [CreateSession] returned. *)
Lemma Inv_configured d R0 st a sv :
  Inv d R0 st -> nth_error (heap st) a = Some sv -> cfg sv <> None ->
  In a (returned st).
Proof.
  intros HI Ha Hc.
  destruct (in_dec Nat.eq_dec a (returned st)) as [|Hn]; [assumption|].
  exfalso. apply Hc. now rewrite (inv_foreign HI _ Ha Hn).
Qed.

Lemma Inv_addEvents d R0 evs st : Inv d R0 st -> Inv d R0 (addEvents evs st).
Proof. intros [? ? ? ? ? ? ?]; constructor; simpl; auto. Qed.

Lemma Inv_setSession d R0 p st :
  Inv d R0 st ->
  (forall a, p = Some a -> In a (returned st)) ->
  Inv true R0 (withClient (setSession (atomic.OfSessionPtr p)) st).
Proof.
  intros [? ? ? ? ? ? ?] Hp; constructor; simpl; auto; try discriminate.
  intros a Ha; injection Ha as ->; auto.
Qed.

Lemma Inv_true_any d R0 st : Inv true R0 st -> Inv d R0 st.
Proof. intros [? ? ? ? ? ? ?]; constructor; auto. Qed.

Lemma Inv_setOnce d R0 st :
  Inv d R0 st -> session (cl st) <> atomic.NilIface ->
  Inv d R0 (withClient (setOnce true) st).
Proof. intros [? ? ? ? ? ? ?] H; constructor; simpl; auto. Qed.

Lemma Inv_setSechan d R0 ch st :
  Inv d R0 st -> session (cl st) <> atomic.NilIface ->
  Inv d R0 (withClient (setSechan ch) st).
Proof. intros [? ? ? ? ? ? ?] H; constructor; simpl; auto. Qed.

Lemma nth_error_snoc_old A (l : list A) x a y :
  nth_error l a = Some y -> nth_error (l ++ [x]) a = Some y.
Proof.
  intros H. rewrite nth_error_app1; [assumption|].
  apply nth_error_Some. congruence.
Qed.

Lemma nth_error_snoc_inv A (l : list A) x a y :
  nth_error (l ++ [x]) a = Some y ->
  nth_error l a = Some y \/ (a = List.length l /\ y = x).
Proof.
  intros H. destruct (Nat.lt_ge_cases a (List.length l)) as [Hlt|Hge].
  - left. now rewrite nth_error_app1 in H.
  - right. rewrite nth_error_app2 in H by assumption.
    destruct (a - List.length l) as [|n] eqn:E; simpl in H.
    + split; [lia | congruence].
    + now destruct n.
Qed.

(** Allocating the caller's zero [Session]. *)
Lemma Inv_alloc_zero d R0 st :
  Inv d R0 st -> Inv d R0 (finalState (alloc zeroSession st)).
Proof.
  intros [? ? ? ? Hr Hf ?]; constructor; simpl; auto.
  - intros a Ha. destruct (Hr a Ha) as (sv & H1 & H2).
    exists sv; split; [now apply nth_error_snoc_old | assumption].
  - intros a sv Ha Hn. apply nth_error_snoc_inv in Ha as [Ha|[_ ->]]; eauto.
Qed.

(** Allocating a session with configuration and response, and recording it
    as returned. *)
Lemma Inv_alloc_returned d R0 st sv :
  Inv d R0 st -> cfg sv <> None -> resp sv <> None ->
  Inv d R0 {| cl := cl st; heap := heap st ++ [sv]; history := history st;
              returned := List.length (heap st) :: returned st |}.
Proof.
  intros [? ? ? Ha Hr Hf Hk] Hc Hp; constructor; simpl; auto.
  - intros a [<-|Hin].
    + exists sv; split; [|auto]. rewrite nth_error_app2 by lia.
      now rewrite Nat.sub_diag.
    + destruct (Hr a Hin) as (sv' & H1 & H2).
      exists sv'; split; [now apply nth_error_snoc_old | assumption].
  - intros a sv' Hn Hnot. apply nth_error_snoc_inv in Hn as [Hn|[-> _]].
    + apply (Hf a sv' Hn). tauto.
    + exfalso; apply Hnot; now left.
  - intros x Hx; right; auto.
Qed.

(** ** [CreateSession] in closed form *)

Section CreateSessionForm.

Variable env : Env.

Lemma CreateSession_no_channel scf st :
  sechan (cl st) = None ->
  CreateSession env scf st = Ret (None, Some errChannelNotConnected) st.
Proof.
  intros H. unfold CreateSession, bind, gets. now rewrite H.
Qed.

Lemma CreateSession_channel scf st ch :
  sechan (cl st) = Some ch ->
  CreateSession env scf st = createOutcome env scf ch st.
Proof.
  intros H. unfold CreateSession, createOutcome, bind at 1, gets.
  rewrite H. unfold bind at 1, rand_Read, bind at 1, emit, modify, bind at 1, gets.
  cbn [history].
  destruct (rand_Read_result env (history st ++ [EvRandRead 32])) as [e|bs];
    [reflexivity|].
  unfold ret at 1, bind at 1, time_Now_UnixNano, bind at 1, emit, modify,
    bind at 1, gets, ret at 1.
  cbn [history cl]. unfold bind at 1. rewrite sechan_Send_eq.
  unfold createRequest, addEvents. cbn [history cl heap returned].
  repeat rewrite <- app_assoc. cbn [app]. fold (orDefault scf).
  match goal with
  | |- context [Send_result env ?h] => destruct (Send_result env h) as [e|v]
  end; [reflexivity|].
  destruct v; reflexivity.
Qed.

Lemma keeps_CreateSession d R0 scf : keeps d R0 (CreateSession env scf).
Proof.
  intros st HI. destruct (sechan (cl st)) as [ch|] eqn:Hc.
  - rewrite (CreateSession_channel scf st Hc). unfold createOutcome.
    destruct (rand_Read_result env _); [now apply Inv_addEvents|].
    cbv zeta.
    destruct (Send_result env _) as [e|v]; [now apply Inv_addEvents|].
    destruct v; try now apply Inv_addEvents.
    apply (Inv_alloc_returned (st := addEvents _ st));
      [now apply Inv_addEvents | discriminate | discriminate].
  - now rewrite (CreateSession_no_channel scf st Hc).
Qed.

End CreateSessionForm.

(** ** Every method keeps the invariant *)

Section Keeps.

Variable env : Env.
Variable d : bool.
Variable R0 : list addr.

Lemma keeps_ret A (a : A) : keeps d R0 (ret a).
Proof. now apply hoare_ret. Qed.

Lemma keeps_panic A msg : keeps d R0 (@panic A msg).
Proof. now apply hoare_panic. Qed.

Lemma keeps_gets A (f : State -> A) : keeps d R0 (gets f).
Proof. now apply hoare_gets. Qed.

Lemma keeps_bind A B (m : M A) (k : A -> M B) :
  keeps d R0 m -> (forall a, keeps d R0 (k a)) -> keeps d R0 (bind m k).
Proof. intros Hm Hk. eapply hoare_bind; [exact Hm | exact Hk]. Qed.

Lemma keeps_emit e : keeps d R0 (emit e).
Proof. apply hoare_modify. intros st. apply (Inv_addEvents [e]). Qed.

Lemma keeps_alloc_zero : keeps d R0 (alloc zeroSession).
Proof. intros st HI. apply (Inv_alloc_zero HI). Qed.

(** [Session()] returns what the holder contains, and then the holder is
    initialised. *)
Lemma hoare_GetSession :
  hoare (Inv d R0) GetSession
    (fun p st => Inv d R0 st /\ session (cl st) = atomic.OfSessionPtr p)
    (Inv d R0).
Proof.
  intros st HI. rewrite GetSession_eq.
  destruct (session (cl st)) eqn:E; auto.
Qed.

Lemma keeps_GetSession : keeps d R0 GetSession.
Proof.
  eapply hoare_conseq; [apply hoare_GetSession| | |]; simpl; auto.
  now intros a st [? _].
Qed.

Lemma hoare_deref a :
  hoare (Inv d R0) (deref a)
    (fun sv st => Inv d R0 st /\ nth_error (heap st) a = Some sv)
    (Inv d R0).
Proof.
  intros st HI. unfold deref.
  destruct (nth_error (heap st) a) eqn:E; simpl; [split|]; auto.
Qed.

(** Storing a typed pointer needs the pointer, when not nil, to be one
    [CreateSession] returned. *)
Lemma hoare_session_Store p :
  hoare (fun st => Inv d R0 st /\ forall a, p = Some a -> In a (returned st))
    (session_Store (atomic.OfSessionPtr p))
    (fun _ => Inv d R0) (Inv d R0).
Proof.
  intros st [HI Hp]. simpl. apply Inv_true_any.
  now apply (Inv_setSession (p := p) HI).
Qed.

Lemma keeps_session_Store_nil : keeps d R0 (session_Store atomic.NilIface).
Proof. intros st HI. exact HI. Qed.

Lemma keeps_sechan_Send (L : Type) ch req tok
    (h : ua.Response -> M (L * error)) l0 :
  (forall v, keeps d R0 (h v)) ->
  keeps d R0 (sechan_Send env ch req tok h l0).
Proof.
  intros Hh. destruct ch as [id|]; [|apply keeps_panic].
  intros st HI. rewrite sechan_Send_eq.
  pose proof (Inv_addEvents [EvSend id req tok] HI) as HI'.
  destruct (Send_result env _) as [e|v]; [assumption|].
  apply (Hh v _ HI').
Qed.

Lemma keeps_Send (L : Type) req (h : ua.Response -> M (L * error)) l0 :
  (forall v, keeps d R0 (h v)) -> keeps d R0 (Send env req h l0).
Proof.
  intros Hh. unfold Send.
  apply keeps_bind; [apply keeps_GetSession|]. intros s.
  apply keeps_bind.
  - destruct s as [a|]; [|apply keeps_ret].
    eapply hoare_bind; [apply hoare_deref|]. intros sv.
    intros st [HI _]. destruct (resp sv); exact HI.
  - intros tok. apply keeps_bind; [apply keeps_gets|]. intros ch.
    now apply keeps_sechan_Send.
Qed.

Lemma keeps_closeSession s : keeps d R0 (closeSession env s).
Proof.
  unfold closeSession. destruct s as [a|]; [|apply keeps_ret].
  apply keeps_bind; [|intros; apply keeps_ret].
  apply keeps_Send. intros v. destruct v; apply keeps_ret.
Qed.

Lemma keeps_CloseSession : keeps d R0 (CloseSession env).
Proof.
  unfold CloseSession.
  apply keeps_bind; [apply keeps_GetSession|]. intros s.
  apply keeps_bind; [apply keeps_closeSession|]. intros e.
  destruct e as [err|]; [apply keeps_ret|].
  apply keeps_bind; [|intros; apply keeps_ret].
  eapply hoare_conseq; [apply (hoare_session_Store (p := None))| | |]; simpl; auto.
  intros st HI; split; [assumption | discriminate].
Qed.

Lemma keeps_DetachSession : keeps d R0 DetachSession.
Proof.
  unfold DetachSession.
  apply keeps_bind; [apply keeps_GetSession|]. intros s.
  apply keeps_bind; [apply keeps_session_Store_nil|].
  intros; apply keeps_ret.
Qed.

Lemma keeps_GetEndpoints : keeps d R0 (GetEndpoints env).
Proof.
  unfold GetEndpoints.
  apply keeps_bind; [apply keeps_gets|]. intros c.
  apply keeps_Send. intros v. destruct v; apply keeps_ret.
Qed.

Lemma keeps_Close : keeps d R0 (Close env).
Proof.
  unfold Close.
  apply keeps_bind; [apply keeps_CloseSession|]. intros _.
  apply keeps_bind; [apply keeps_gets|]. intros ch.
  unfold sechan_Close. destruct ch as [id|]; [|apply keeps_panic].
  apply keeps_bind; [apply keeps_emit|]. intros _.
  apply keeps_bind; [apply keeps_gets|]. intros; apply keeps_ret.
Qed.

End Keeps.

Section KeepsLifecycle.

Variable env : Env.

(** [ActivateSession] installs its argument only after dereferencing its
    configuration and response, which a caller's zero [Session] lacks. *)
Lemma keeps_ActivateSession d R0 s : keeps d R0 (ActivateSession env s).
Proof.
  intros st HI. unfold ActivateSession.
  destruct s as [a|]; [|exact HI].
  unfold bind at 1, deref.
  destruct (nth_error (heap st) a) as [sv|] eqn:Ha; [|exact HI].
  destruct (cfg sv) as [scf|] eqn:Hcfg; [|exact HI].
  unfold bind at 1, gets.
  destruct (resp sv) as [rsp|] eqn:Hresp; [|exact HI].
  assert (Hin : In a (returned st)).
  { eapply Inv_configured; [exact HI | exact Ha | congruence]. }
  pose proof (Inv_learn a HI Hin) as HI'.
  match goal with
  | |- match ?m st with _ => _ end =>
      assert (H : keeps d (a :: R0) m)
  end.
  { apply keeps_bind; [|intros; apply keeps_ret].
    apply keeps_sechan_Send. intros v.
    destruct v; try apply keeps_ret.
    apply keeps_bind; [apply keeps_CloseSession|]. intros e.
    destruct e as [err|].
    - apply keeps_bind; [apply keeps_closeSession | intros; apply keeps_ret].
    - apply keeps_bind; [|intros; apply keeps_ret].
      eapply hoare_conseq;
        [apply (@hoare_session_Store d (a :: R0) (Some a))| | |]; simpl; auto.
      intros st' HI''; split; [assumption|].
      intros a' E; injection E as <-.
      apply (inv_keep HI''). now left. }
  specialize (H st HI').
  match goal with
  | |- match ?r with _ => _ end => destruct r
  end; now apply Inv_forget with a.
Qed.

(** After [Dial], whatever its result, the holder is initialised. *)
Lemma hoare_Dial d R0 cf :
  hoare (Inv d R0) (Dial env cf) (fun _ => Inv true R0) (Inv true R0).
Proof.
  unfold Dial. eapply hoare_bind with (Q := fun _ => Inv true R0).
  - intros st HI. unfold once_Do.
    destruct (once (cl st)) eqn:Ho.
    + apply (Inv_initialised HI). now apply (inv_once HI).
    + simpl. apply Inv_setOnce; [|simpl; discriminate].
      apply (Inv_setSession (p := None) HI). discriminate.
  - intros _. apply keeps_bind; [apply keeps_gets|]. intros c.
    destruct (sechan c); [apply keeps_ret|].
    apply keeps_bind.
    { unfold uacp_Dial.
      apply keeps_bind; [apply keeps_emit|]. intros _.
      apply keeps_bind; [apply keeps_gets|]. intros h.
      destruct (uacp_Dial_result env h); apply keeps_ret. }
    intros [[conn|] [e|]]; try apply keeps_ret.
    apply keeps_bind.
    { unfold NewSecureChannel.
      apply keeps_bind; [apply keeps_emit|]. intros _.
      apply keeps_bind; [apply keeps_gets|]. intros h.
      destruct (NewSecureChannel_result env h); apply keeps_ret. }
    assert (Hcc : keeps true R0 (conn_Close env conn)).
    { unfold conn_Close.
      apply keeps_bind; [apply keeps_emit|]. intros _.
      apply keeps_bind; [apply keeps_gets|]. intros; apply keeps_ret. }
    intros [[ch|] [e|]];
      try (apply keeps_bind; [exact Hcc | intros; apply keeps_ret]).
    apply keeps_bind.
    { unfold sechan_Open.
      apply keeps_bind; [apply keeps_emit|]. intros _.
      apply keeps_bind; [apply keeps_gets|]. intros; apply keeps_ret. }
    intros [err|].
    + apply keeps_bind; [exact Hcc | intros; apply keeps_ret].
    + apply keeps_bind; [|intros; apply keeps_ret].
      apply hoare_modify. intros st HI.
      apply Inv_setSechan; [assumption|]. now apply (inv_init HI).
Qed.

Lemma keeps_Dial d R0 cf : keeps d R0 (Dial env cf).
Proof.
  eapply hoare_conseq; [apply (@hoare_Dial d R0 cf) | auto | |];
    intros; now apply Inv_true_any.
Qed.

(** After [Connect], whatever its result, the holder is initialised. *)
Lemma hoare_Connect d R0 :
  hoare (Inv d R0) (Connect env) (fun _ => Inv true R0) (Inv true R0).
Proof.
  apply hoare_pre. intros st0 HI0. unfold Connect.
  eapply hoare_bind with (Q := fun c st => st = st0 /\ c = cl st0).
  { apply hoare_gets. intros st ->. auto. }
  intros c. destruct (sechan c) eqn:Hc.
  - apply hoare_ret. intros st [-> ->].
    apply (Inv_initialised HI0). apply (inv_chan HI0). congruence.
  - eapply hoare_bind with (Q := fun _ => Inv true R0).
    { eapply hoare_conseq; [apply (@hoare_Dial d R0 (Config c)) | | auto | auto].
      now intros st [-> _]. }
    intros [err|]; [apply keeps_ret|].
    apply keeps_bind; [apply keeps_CreateSession|].
    intros [s [err|]].
    + apply keeps_bind; [apply keeps_Close | intros; apply keeps_ret].
    + apply keeps_bind; [apply keeps_ActivateSession|].
      intros [err|]; [|apply keeps_ret].
      apply keeps_bind; [apply keeps_Close | intros; apply keeps_ret].
Qed.

Lemma keeps_exec d R0 k st : Inv d R0 st -> Inv d R0 (exec env k st).
Proof.
  intros HI.
  assert (G : forall A (m : M A), keeps d R0 m -> Inv d R0 (finalState (m st))).
  { intros A m Hm. specialize (Hm st HI). now destruct (m st). }
  destruct k; cbn [exec]; apply G.
  - eapply hoare_conseq; [apply (@hoare_Connect d R0) | auto | |];
      intros; now apply Inv_true_any.
  - apply keeps_Dial.
  - apply keeps_Close.
  - apply keeps_GetSession.
  - apply keeps_CreateSession.
  - apply keeps_ActivateSession.
  - apply keeps_CloseSession.
  - apply keeps_DetachSession.
  - apply keeps_Send. intros; apply keeps_ret.
  - apply keeps_GetEndpoints.
  - apply keeps_alloc_zero.
Qed.

Lemma keeps_run d R0 ks st : Inv d R0 st -> Inv d R0 (run env ks st).
Proof.
  revert st. induction ks as [|k ks IH]; intros st HI; simpl; [assumption|].
  apply IH. now apply keeps_exec.
Qed.

(** A call that invokes [Dial] leaves the holder initialised. *)
Lemma exec_dial_initialises d R0 k st :
  invokesDial k = true -> Inv d R0 st -> Inv true R0 (exec env k st).
Proof.
  intros Hk HI. destruct k; try discriminate; simpl.
  - pose proof (hoare_Connect HI) as H. now destruct (Connect env st).
  - pose proof (hoare_Dial cf HI) as H. now destruct (Dial env cf st).
Qed.

Lemma run_app ks ks' st : run env (ks ++ ks') st = run env ks' (run env ks st).
Proof. unfold run. apply fold_left_app. Qed.

(** Every state a program reaches from a new client satisfies the
    invariant; once the program has invoked [Dial], the holder is
    initialised. *)
Lemma reachable_Inv url cf scf ks :
  Inv (existsb invokesDial ks) []
      (run env ks (initState (newClient url cf scf))).
Proof.
  destruct (existsb invokesDial ks) eqn:E.
  - apply existsb_exists in E as (k & Hin & Hk).
    apply in_split in Hin as (l1 & l2 & ->).
    rewrite run_app. simpl. apply keeps_run.
    apply (@exec_dial_initialises false []); [assumption|].
    apply keeps_run, Inv_init.
  - apply keeps_run, Inv_init.
Qed.

End KeepsLifecycle.

(** In a state satisfying the invariant, a client with a channel has an
    initialised holder, and an active session is an object with a
    response. *)
Lemma Inv_holder d R0 st ch :
  Inv d R0 st -> sechan (cl st) = Some ch ->
  session (cl st) = atomic.OfSessionPtr None
  \/ exists a sv r,
       session (cl st) = atomic.OfSessionPtr (Some a)
       /\ In a (returned st)
       /\ nth_error (heap st) a = Some sv
       /\ cfg sv <> None
       /\ resp sv = Some r.
Proof.
  intros HI Hc.
  assert (Hn : session (cl st) <> atomic.NilIface).
  { apply (inv_chan HI). congruence. }
  destruct (session (cl st)) as [|[a|]] eqn:Hs; [congruence| |now left].
  right. pose proof (inv_active HI Hs) as Hin.
  destruct (inv_returned HI _ Hin) as (sv & Ha & Hcfg & Hresp).
  destruct (resp sv) as [r|] eqn:Hr; [|congruence].
  exists a, sv, r. auto.
Qed.

(** ** A client whose holder was never initialised *)

Section Uninitialised.

Variable env : Env.
Variable st : State.
Hypothesis Hnil : session (cl st) = atomic.NilIface.

Lemma GetSession_uninitialised : GetSession st = Panic panicNilAssert st.
Proof. now rewrite GetSession_eq, Hnil. Qed.

Lemma Send_uninitialised (L : Type) req
    (h : ua.Response -> M (L * error)) l0 :
  Send env req h l0 st = Panic panicNilAssert st.
Proof. unfold Send, bind at 1. now rewrite GetSession_uninitialised. Qed.

Lemma CloseSession_uninitialised :
  CloseSession env st = Panic panicNilAssert st.
Proof. unfold CloseSession, bind at 1. now rewrite GetSession_uninitialised. Qed.

Lemma Close_uninitialised : Close env st = Panic panicNilAssert st.
Proof. unfold Close, bind at 1. now rewrite CloseSession_uninitialised. Qed.

Lemma GetEndpoints_uninitialised :
  GetEndpoints env st = Panic panicNilAssert st.
Proof.
  unfold GetEndpoints, bind at 1, gets. now rewrite Send_uninitialised.
Qed.

Lemma DetachSession_uninitialised :
  DetachSession st = Panic panicNilAssert st.
Proof. unfold DetachSession, bind at 1. now rewrite GetSession_uninitialised. Qed.

End Uninitialised.

(** Without a channel [ActivateSession] panics before it changes
    anything. *)
Lemma ActivateSession_no_channel env s st :
  sechan (cl st) = None ->
  exists msg, ActivateSession env s st = Panic msg st.
Proof.
  intros Hc. unfold ActivateSession.
  destruct s as [a|]; [|simpl; eauto].
  unfold bind at 1, deref.
  destruct (nth_error (heap st) a) as [sv|]; [|eauto].
  destruct (cfg sv); [|simpl; eauto].
  unfold bind at 1, gets. rewrite Hc.
  destruct (resp sv); unfold bind, sechan_Send, panic; eauto.
Qed.

Lemma exec_undialed env k st :
  invokesDial k = false -> undialed st -> undialed (exec env k st).
Proof.
  intros Hk [Hs Hc]. destruct k; try discriminate; cbn [exec].
  - now rewrite Close_uninitialised.
  - now rewrite GetSession_uninitialised.
  - now rewrite CreateSession_no_channel.
  - destruct (ActivateSession_no_channel env s st Hc) as [msg ->]. now split.
  - now rewrite CloseSession_uninitialised.
  - now rewrite DetachSession_uninitialised.
  - now rewrite Send_uninitialised.
  - now rewrite GetEndpoints_uninitialised.
  - now split.
Qed.

Lemma run_undialed env ks st :
  existsb invokesDial ks = false -> undialed st -> undialed (run env ks st).
Proof.
  revert st. induction ks as [|k ks IH]; intros st Hks Hu; simpl; [assumption|].
  simpl in Hks. apply orb_false_iff in Hks as [Hk Hks].
  apply IH; [assumption|]. now apply exec_undialed.
Qed.

(** What [Dial] leaves in the holder: the typed nil pointer if [once] had
    not run yet, the previous content otherwise. *)
Lemma Dial_holder env cf st :
  session (cl (finalState (Dial env cf st)))
  = (if once (cl st) then session (cl st) else atomic.OfSessionPtr None)
  /\ once (cl (finalState (Dial env cf st))) = true.
Proof.
  set (X := if once (cl st) then session (cl st) else atomic.OfSessionPtr None).
  set (P := fun s : State => session (cl s) = X /\ once (cl s) = true).
  assert (H : hoare (fun s => s = st) (Dial env cf)
                (fun _ => P)
                P).
  { unfold Dial.
    eapply hoare_bind with (Q := fun _ => P).
    { intros s Hs. subst s. unfold once_Do, P, X.
    destruct (once (cl st)) eqn:Ho; simpl; auto. }
    intros ?.
    assert (Hemit : forall e, hoare P (emit e)
                       (fun _ => P)
                       P).
    { intros e. now apply hoare_modify. }
    assert (Hgets : forall A (f : State -> A),
               hoare P (gets f)
                 (fun _ => P)
                 P).
    { intros A f. now apply hoare_gets. }
    assert (Hret : forall A (a : A),
               hoare P (ret a)
                 (fun _ => P)
                 P).
    { intros A x. now apply hoare_ret. }
    assert (Hcc : forall conn,
               hoare P (conn_Close env conn)
                 (fun _ => P)
                 P).
    { intros conn. unfold conn_Close.
      eapply hoare_bind; [apply Hemit|]. intros ?.
      eapply hoare_bind; [apply Hgets|]. intros; apply Hret. }
    eapply hoare_bind; [apply Hgets|]. intros c.
    destruct (sechan c); [apply Hret|].
    eapply hoare_bind with (Q := fun _ => P).
    { unfold uacp_Dial.
      eapply hoare_bind; [apply Hemit|]. intros ?.
      eapply hoare_bind; [apply Hgets|]. intros h.
      destruct (uacp_Dial_result env h); apply Hret. }
    intros [[conn|] [e|]]; try apply Hret.
    eapply hoare_bind with (Q := fun _ => P).
    { unfold NewSecureChannel.
      eapply hoare_bind; [apply Hemit|]. intros ?.
      eapply hoare_bind; [apply Hgets|]. intros h.
      destruct (NewSecureChannel_result env h); apply Hret. }
    intros [[ch|] [e|]];
      try (eapply hoare_bind; [apply Hcc | intros; apply Hret]).
    eapply hoare_bind with (Q := fun _ => P).
    { unfold sechan_Open.
      eapply hoare_bind; [apply Hemit|]. intros ?.
      eapply hoare_bind; [apply Hgets|]. intros; apply Hret. }
    intros [err|].
    - eapply hoare_bind; [apply Hcc | intros; apply Hret].
    - eapply hoare_bind; [|intros; apply Hret].
      now apply hoare_modify. }
  specialize (H st eq_refl). now destruct (Dial env cf st).
Qed.

(** ** What the ghost list [returned] records *)

(** A property of the state that no write to the client record and no new
    event disturbs is kept by every method that allocates no session. *)
Section Frame.

Variable env : Env.
Variable P : State -> Prop.
Hypothesis P_client : forall f s, P s -> P (withClient f s).
Hypothesis P_events : forall evs s, P s -> P (addEvents evs s).

Lemma frames_ret A (a : A) : frames P (ret a).
Proof. now apply hoare_ret. Qed.

Lemma frames_panic A msg : frames P (@panic A msg).
Proof. now apply hoare_panic. Qed.

Lemma frames_gets A (f : State -> A) : frames P (gets f).
Proof. now apply hoare_gets. Qed.

Lemma frames_bind A B (m : M A) (k : A -> M B) :
  frames P m -> (forall a, frames P (k a)) -> frames P (bind m k).
Proof. intros Hm Hk. eapply hoare_bind; [exact Hm | exact Hk]. Qed.

Lemma frames_emit e : frames P (emit e).
Proof. apply hoare_modify. intros s. apply (P_events [e]). Qed.

Lemma frames_deref a : frames P (deref a).
Proof. intros s H. unfold deref. now destruct (nth_error (heap s) a). Qed.

Lemma frames_GetSession : frames P GetSession.
Proof. intros s H. rewrite GetSession_eq. now destruct (session (cl s)). Qed.

Lemma frames_session_Store val : frames P (session_Store val).
Proof.
  intros s H. unfold session_Store. destruct val; simpl; auto.
Qed.

Lemma frames_sechan_Send (L : Type) ch req tok
    (h : ua.Response -> M (L * error)) l0 :
  (forall v, frames P (h v)) -> frames P (sechan_Send env ch req tok h l0).
Proof.
  intros Hh. destruct ch as [id|]; [|apply frames_panic].
  intros s H. rewrite sechan_Send_eq.
  pose proof (P_events [EvSend id req tok] H) as H'.
  destruct (Send_result env _) as [e|v]; [assumption|].
  apply (Hh v _ H').
Qed.

Lemma frames_Send (L : Type) req (h : ua.Response -> M (L * error)) l0 :
  (forall v, frames P (h v)) -> frames P (Send env req h l0).
Proof.
  intros Hh. unfold Send.
  apply frames_bind; [apply frames_GetSession|]. intros s.
  apply frames_bind.
  - destruct s as [a|]; [|apply frames_ret].
    apply frames_bind; [apply frames_deref|]. intros sv.
    destruct (resp sv); [apply frames_ret | apply frames_panic].
  - intros tok. apply frames_bind; [apply frames_gets|]. intros ch.
    now apply frames_sechan_Send.
Qed.

Lemma frames_closeSession s : frames P (closeSession env s).
Proof.
  unfold closeSession. destruct s as [a|]; [|apply frames_ret].
  apply frames_bind; [|intros; apply frames_ret].
  apply frames_Send. intros v. destruct v; apply frames_ret.
Qed.

Lemma frames_CloseSession : frames P (CloseSession env).
Proof.
  unfold CloseSession.
  apply frames_bind; [apply frames_GetSession|]. intros s.
  apply frames_bind; [apply frames_closeSession|]. intros e.
  destruct e as [err|]; [apply frames_ret|].
  apply frames_bind; [apply frames_session_Store | intros; apply frames_ret].
Qed.

Lemma frames_DetachSession : frames P DetachSession.
Proof.
  unfold DetachSession.
  apply frames_bind; [apply frames_GetSession|]. intros s.
  apply frames_bind; [apply frames_session_Store | intros; apply frames_ret].
Qed.

Lemma frames_GetEndpoints : frames P (GetEndpoints env).
Proof.
  unfold GetEndpoints.
  apply frames_bind; [apply frames_gets|]. intros c.
  apply frames_Send. intros v. destruct v; apply frames_ret.
Qed.

Lemma frames_Close : frames P (Close env).
Proof.
  unfold Close.
  apply frames_bind; [apply frames_CloseSession|]. intros ?.
  apply frames_bind; [apply frames_gets|]. intros ch.
  unfold sechan_Close. destruct ch as [id|]; [|apply frames_panic].
  apply frames_bind; [apply frames_emit|]. intros ?.
  apply frames_bind; [apply frames_gets|]. intros; apply frames_ret.
Qed.

Lemma frames_ActivateSession s : frames P (ActivateSession env s).
Proof.
  unfold ActivateSession. destruct s as [a|]; [|apply frames_panic].
  apply frames_bind; [apply frames_deref|]. intros sv.
  destruct (cfg sv); [|apply frames_panic].
  apply frames_bind; [apply frames_gets|]. intros ch.
  destruct (resp sv); [|apply frames_panic].
  apply frames_bind; [|intros; apply frames_ret].
  apply frames_sechan_Send. intros v. destruct v; try apply frames_ret.
  apply frames_bind; [apply frames_CloseSession|]. intros e.
  destruct e as [err|].
  - apply frames_bind; [apply frames_closeSession | intros; apply frames_ret].
  - apply frames_bind; [apply frames_session_Store | intros; apply frames_ret].
Qed.

Lemma frames_Dial cf : frames P (Dial env cf).
Proof.
  unfold Dial. apply frames_bind.
  { intros s H. unfold once_Do. destruct (once (cl s)); simpl; auto. }
  intros ?. apply frames_bind; [apply frames_gets|]. intros c.
  destruct (sechan c); [apply frames_ret|].
  assert (Hcc : forall conn, frames P (conn_Close env conn)).
  { intros conn. unfold conn_Close.
    apply frames_bind; [apply frames_emit|]. intros ?.
    apply frames_bind; [apply frames_gets|]. intros; apply frames_ret. }
  apply frames_bind.
  { unfold uacp_Dial.
    apply frames_bind; [apply frames_emit|]. intros ?.
    apply frames_bind; [apply frames_gets|]. intros h.
    destruct (uacp_Dial_result env h); apply frames_ret. }
  intros [[conn|] [e|]]; try apply frames_ret.
  apply frames_bind.
  { unfold NewSecureChannel.
    apply frames_bind; [apply frames_emit|]. intros ?.
    apply frames_bind; [apply frames_gets|]. intros h.
    destruct (NewSecureChannel_result env h); apply frames_ret. }
  intros [[ch|] [e|]];
    try (apply frames_bind; [apply Hcc | intros; apply frames_ret]).
  apply frames_bind.
  { unfold sechan_Open.
    apply frames_bind; [apply frames_emit|]. intros ?.
    apply frames_bind; [apply frames_gets|]. intros; apply frames_ret. }
  intros [err|].
  - apply frames_bind; [apply Hcc | intros; apply frames_ret].
  - apply frames_bind; [|intros; apply frames_ret].
    apply hoare_modify. intros s. apply P_client.
Qed.

End Frame.

(** [CreateSession] adds to [returned] exactly the pointer it returns, if
    not nil. *)
Lemma CreateSession_records_result env scf st :
  match CreateSession env scf st with
  | Ret (Some a, _) st' => returned st' = a :: returned st
  | Ret (None, _) st' => returned st' = returned st
  | Panic _ st' => returned st' = returned st
  end.
Proof.
  destruct (sechan (cl st)) as [ch|] eqn:Hc.
  - rewrite (CreateSession_channel env scf st Hc). unfold createOutcome.
    destruct (rand_Read_result env _); [reflexivity|]. cbv zeta.
    destruct (Send_result env _) as [e|v]; [reflexivity|].
    destruct v; reflexivity.
  - now rewrite (CreateSession_no_channel env scf st Hc).
Qed.

(** No other method but [Connect], which calls [CreateSession], touches
    [returned]. *)
Lemma returned_unchanged env k st :
  match k with
  | CallConnect | CallCreateSession _ => True
  | _ => returned (exec env k st) = returned st
  end.
Proof.
  set (P := fun s : State => returned s = returned st).
  assert (G : forall A (m : M A), frames P m -> returned (finalState (m st)) = returned st).
  { intros A m Hm. specialize (Hm st eq_refl). now destruct (m st). }
  assert (P1 : forall f s, P s -> P (withClient f s)) by (intros; assumption).
  assert (P2 : forall evs s, P s -> P (addEvents evs s)) by (intros; assumption).
  destruct k; cbn [exec]; try exact I; try apply G.
  - now apply frames_Dial.
  - now apply frames_Close.
  - now apply frames_GetSession.
  - now apply frames_ActivateSession.
  - now apply frames_CloseSession.
  - now apply frames_DetachSession.
  - apply frames_Send; [assumption|]. intros; now apply frames_ret.
  - now apply frames_GetEndpoints.
  - intros s H; exact H.
Qed.

(** ** [ActivateSession] over an active session *)

Section Activate.

Variable env : Env.
Variables (st : State) (ch : nat).
Variables (a : addr) (sv : Session) (scf : uasc.SessionConfig)
          (rsp : ua.CreateSessionResponse).
Hypothesis Hc : sechan (cl st) = Some ch.
Hypothesis Ha : nth_error (heap st) a = Some sv.
Hypothesis Hcfg : cfg sv = Some scf.
Hypothesis Hresp : resp sv = Some rsp.

Local Abbreviation actEv := (activateEvent ch sv scf rsp).

Variable nonce : list Byte.byte.
Hypothesis Hactivated :
  Send_result env (history st ++ [actEv])
  = Deliver (ua.PActivateSessionResponse nonce).

(** No session was active: the new one is installed. *)
Lemma ActivateSession_first :
  session (cl st) = atomic.OfSessionPtr None ->
  ActivateSession env (Some a) st
  = Ret None (withClient (setSession (atomic.OfSessionPtr (Some a)))
                (addEvents [actEv] st)).
Proof.
  intros Hs. unfold ActivateSession, bind at 1, deref. rewrite Ha, Hcfg.
  unfold bind at 1, gets. rewrite Hresp, Hc.
  unfold bind at 1. rewrite sechan_Send_eq. fold actEv.
  rewrite Hactivated. unfold bind at 1.
  rewrite CloseSession_no_active_eq by exact Hs.
  reflexivity.
Qed.

Variables (p : addr) (pv : Session) (pr : ua.CreateSessionResponse).
Hypothesis Hs : session (cl st) = atomic.OfSessionPtr (Some p).
Hypothesis Hp : nth_error (heap st) p = Some pv.
Hypothesis Hpresp : resp pv = Some pr.

Local Abbreviation closeEv := (closePriorEvent ch pr).

(** The prior session is closed: the new one is installed. *)
Lemma ActivateSession_prior_closed :
  closeResult env (history st ++ [actEv; closeEv]) = None ->
  ActivateSession env (Some a) st
  = Ret None (withClient (setSession (atomic.OfSessionPtr (Some a)))
                (addEvents [actEv; closeEv] st)).
Proof.
  intros Hclose. unfold ActivateSession, bind at 1, deref. rewrite Ha, Hcfg.
  unfold bind at 1, gets. rewrite Hresp, Hc.
  unfold bind at 1. rewrite sechan_Send_eq. fold actEv.
  rewrite Hactivated. unfold bind at 1.
  rewrite (@CloseSession_active_eq env (addEvents [actEv] st)
             ch p pv pr Hc Hs Hp Hpresp).
  fold closeEv. cbn [history addEvents].
  rewrite <- app_assoc. cbn [app]. rewrite Hclose.
  unfold bind, session_Store, atomic_Store, ret, withClient, setSession,
    addEvents.
  cbn [history cl heap returned EndpointURL Config SessionConfig sechan
       session once snd].
  now rewrite <- app_assoc.
Qed.

(** Closing the prior session fails with [e]: the error is returned, the
    client record is unchanged, and the second [CloseSessionRequest], meant
    for the new session, goes out with the token of the PRIOR session
    again, because [closeSession] sends through [Send]. *)
Lemma ActivateSession_prior_close_fails e :
  closeResult env (history st ++ [actEv; closeEv]) = Some e ->
  ActivateSession env (Some a) st
  = Ret (Some e)
        (addEvents [actEv; closeEv; closeEv] st).
Proof.
  intros Hclose. unfold ActivateSession, bind at 1, deref. rewrite Ha, Hcfg.
  unfold bind at 1, gets. rewrite Hresp, Hc.
  unfold bind at 1. rewrite sechan_Send_eq. fold actEv.
  rewrite Hactivated. unfold bind at 1.
  rewrite (@CloseSession_active_eq env (addEvents [actEv] st)
             ch p pv pr Hc Hs Hp Hpresp).
  fold closeEv. cbn [history addEvents].
  rewrite <- app_assoc. cbn [app]. rewrite Hclose.
  unfold bind at 1.
  rewrite (@closeSession_eq env
             (addEvents [closeEv] (addEvents [actEv] st))
             ch p pv pr a Hc Hs Hp Hpresp).
  fold closeEv. unfold addEvents; cbn [history cl heap returned].
  repeat rewrite <- app_assoc. reflexivity.
Qed.

End Activate.

(** ** The invariant under callers that copy sessions *)













Section Holds.

Variable env : Env.
Variable d : bool.
Variable K : list addr.





















End Holds.

Section HoldsLifecycle.

Variable env : Env.












Lemma callsOf_dial xs :
  forallb ownSessionsOnly xs = true ->
  existsb invokesDial (callsOf xs) = existsb stepInvokesDial xs.
Proof.
  induction xs as [|x xs IH]; intros H; [reflexivity|].
  simpl in H. apply andb_true_iff in H as [Hx Hxs].
  destruct x; try discriminate. simpl. now rewrite IH.
Qed.

End HoldsLifecycle.

(** ** The properties of the specification *)

(** C1.  When closing the previously active session fails,
    [ActivateSession] is specified to close the newly activated session on
    the wire, to leave it uninstalled and to return the error of the failed
    close.  On the client [Inputs.twoSessions] (session 0 active with token
    6, session 1 created with token 10, a server that fails every
    [CloseSessionRequest]), [ActivateSession] of session 1 does return the
    error of the failed close and does leave session 0 active; but both
    [CloseSessionRequest]s it sends carry token 6, the prior session's, and
    none carries token 10: the new session is never closed on the wire. *)
Theorem ActivateSession_never_closes_new_session :
  let st := Inputs.twoSessions in
  session (cl st) = atomic.OfSessionPtr (Some 0)
  /\ option_map tokenOf (nth_error (heap st) 0) = Some (Some 6%Z)
  /\ option_map tokenOf (nth_error (heap st) 1) = Some (Some 10%Z)
  /\ exists act st',
       ActivateSession Examples.noCloseEnv (Some 1) st
       = Ret (Some "BadSessionNotActivated") st'
       /\ session (cl st') = atomic.OfSessionPtr (Some 0)
       /\ added st st'
            [EvSend 1 act (Some 10%Z);
             EvSend 1 (ua.CloseSessionRequest true) (Some 6%Z);
             EvSend 1 (ua.CloseSessionRequest true) (Some 6%Z)]
       /\ forall c b, ~ In (EvSend c (ua.CloseSessionRequest b) (Some 10%Z))
                          (history st').
Proof.
  cbv zeta. split; [reflexivity|]. split; [reflexivity|].
  split; [reflexivity|].
  eexists _, _. split; [vm_compute; reflexivity|].
  split; [reflexivity|]. split; [vm_compute; reflexivity|].
  intros c b H. vm_compute in H.
  repeat (destruct H as [H|H]; [discriminate|]). exact H.
Qed.

(** C2.  [DetachSession] is specified to return normally with the
    previously active session and to leave the client without one.  The code
    stores the untyped [nil] into the [atomic.Value], which panics: in every
    state [DetachSession] panics and changes nothing.  On a connected client
    the panic is the one of [atomic.Value.Store], and the session stays
    active. *)
Theorem DetachSession_always_panics :
  (forall st, exists msg, DetachSession st = Panic msg st)
  /\ DetachSession Inputs.connected = Panic panicStoreNil Inputs.connected
  /\ session (cl Inputs.connected) = atomic.OfSessionPtr (Some 0).
Proof.
  split; [|split; reflexivity].
  intros st. unfold DetachSession, bind. rewrite GetSession_eq.
  destruct (session (cl st)); simpl; eauto.
Qed.

(** C3.  On a client that already holds a secure channel, [Connect] returns
    the error "already connected" and leaves the whole state (channel,
    active session, history) as it was. *)
Theorem Connect_already_connected env st ch :
  sechan (cl st) = Some ch ->
  Connect env st = Ret (Some errAlreadyConnected) st.
Proof.
  intros H. unfold Connect, bind, gets. now rewrite H.
Qed.

Lemma Connect_already_connected_witness :
  sechan (cl Inputs.connected) = Some 1
  /\ Connect Examples.goodEnv Inputs.connected
     = Ret (Some errAlreadyConnected) Inputs.connected.
Proof.
  split; [reflexivity|].
  apply (@Connect_already_connected Examples.goodEnv Inputs.connected 1).
  reflexivity.
Defined.




(** C5.  [CreateSession] always returns (it never panics) and leaves the
    client record, in particular the session holder, exactly as it was,
    whether it succeeds or fails.  A session it returns is a new object: its
    address was free before the call, so it is not the active one. *)
Theorem CreateSession_keeps_holder env scf st :
  exists p e st',
    CreateSession env scf st = Ret (p, e) st'
    /\ cl st' = cl st
    /\ session (cl st') = session (cl st)
    /\ forall a, p = Some a ->
         nth_error (heap st) a = None
         /\ forall b, session (cl st') = atomic.OfSessionPtr (Some b) ->
                      nth_error (heap st) b <> None -> b <> a.
Proof.
  assert (F : forall p e st',
             cl st' = cl st ->
             (forall a, p = Some a -> a = List.length (heap st)) ->
             CreateSession env scf st = Ret (p, e) st' ->
             exists p e st',
               CreateSession env scf st = Ret (p, e) st'
               /\ cl st' = cl st
               /\ session (cl st') = session (cl st)
               /\ forall a, p = Some a ->
                    nth_error (heap st) a = None
                    /\ forall b,
                        session (cl st') = atomic.OfSessionPtr (Some b) ->
                        nth_error (heap st) b <> None -> b <> a).
  { intros p e st' Hcl Hp E. exists p, e, st'.
    split; [assumption|]. split; [assumption|].
    split; [now rewrite Hcl|].
    intros a Ha. specialize (Hp a Ha). subst a.
    assert (N : nth_error (heap st) (List.length (heap st)) = None)
      by (apply nth_error_None; lia).
    split; [assumption|]. intros b _ Hb ->. now apply Hb. }
  destruct (sechan (cl st)) as [ch|] eqn:Hc.
  - rewrite (CreateSession_channel env scf st Hc) in *. unfold createOutcome in *.
    destruct (rand_Read_result env _) as [e|bs].
    + eapply F; [| |reflexivity]; [reflexivity | discriminate].
    + cbv zeta in *. destruct (Send_result env _) as [e|v].
      * eapply F; [| |reflexivity]; [reflexivity | discriminate].
      * destruct v;
          (eapply F; [| |reflexivity];
           [reflexivity | try discriminate; now intros a [= <-]]).
  - rewrite (CreateSession_no_channel env scf st Hc) in *.
    eapply F; [| |reflexivity]; [reflexivity | discriminate].
Qed.

(** C6.  On a client that holds a channel, [Send] forwards the request to
    the secure channel unchanged, together with the handler: with a nil
    token when no session is active, with the authentication token of the
    active session otherwise.  In particular [GetEndpoints] on a channel
    without an active session sends its request with a nil token and returns
    the endpoints the server answers with. *)
Theorem Send_attaches_active_token env url cf scf ks ch :
  let st := run env ks (initState (newClient url cf scf)) in
  sechan (cl st) = Some ch ->
  (forall (L : Type) req (h : ua.Response -> M (L * error)) l0,
      (session (cl st) = atomic.OfSessionPtr None
       /\ Send env req h l0 st = sechan_Send env (Some ch) req None h l0 st)
      \/ (exists a sv r,
             session (cl st) = atomic.OfSessionPtr (Some a)
             /\ nth_error (heap st) a = Some sv
             /\ resp sv = Some r
             /\ Send env req h l0 st
                = sechan_Send env (Some ch) req (ua.AuthenticationToken r)
                    h l0 st))
  /\ (session (cl st) = atomic.OfSessionPtr None ->
      forall r,
        let ev := EvSend ch (ua.GetEndpointsRequest (EndpointURL (cl st))) None in
        Send_result env (history st ++ [ev])
        = Deliver (ua.PGetEndpointsResponse r) ->
        GetEndpoints env st = Ret (Some r, None) (addEvents [ev] st)).
Proof.
  intros st Hc.
  pose proof (reachable_Inv env url cf scf ks) as HI. fold st in HI.
  split.
  - intros L req h l0.
    destruct (Inv_holder HI Hc) as [Hs|(a & sv & r & Hs & _ & Ha & _ & Hr)].
    + left. split; [assumption|].
      now rewrite (Send_no_session env req h l0 st Hs), Hc.
    + right. exists a, sv, r. repeat (split; [assumption|]).
      now rewrite (Send_active_session env req h l0 st Hs Ha Hr), Hc.
  - intros Hs r ev Hr. unfold GetEndpoints, bind at 1, gets.
    rewrite (Send_no_session env _ _ _ st Hs), Hc, sechan_Send_eq.
    fold ev. now rewrite Hr.
Qed.

Lemma Send_attaches_active_token_witness :
  sechan (cl Inputs.dialed) = Some 1
  /\ session (cl Inputs.dialed) = atomic.OfSessionPtr None
  /\ exists r ev,
       GetEndpoints Examples.goodEnv Inputs.dialed
       = Ret (Some r, None) (addEvents [ev] Inputs.dialed)
       /\ ev = EvSend 1 (ua.GetEndpointsRequest "opc.tcp://localhost:4840") None.
Proof.
  split; [reflexivity|]. split; [reflexivity|].
  destruct (@Send_attaches_active_token Examples.goodEnv
              "opc.tcp://localhost:4840" None None [CallDial None] 1 eq_refl)
    as [_ H].
  eexists _, _. split; [|reflexivity].
  apply (H eq_refl). reflexivity.
Defined.

(** C7.  On a connected client (any state a program reaches from a new
    client in which the client holds a channel), [CloseSession] returns some
    result [e1], error or not; [Close] then closes the secure channel all the
    same and returns what closing the channel returned. *)
Theorem Close_returns_channel_error env url cf scf ks ch :
  let st := run env ks (initState (newClient url cf scf)) in
  sechan (cl st) = Some ch ->
  exists e1 st1,
    CloseSession env st = Ret e1 st1
    /\ Close env st
       = Ret (chan_Close_result env (history st1 ++ [EvChanClose ch]))
             (addEvents [EvChanClose ch] st1).
Proof.
  intros st Hc.
  pose proof (reachable_Inv env url cf scf ks) as HI. fold st in HI.
  assert (H : exists e1 st1,
             CloseSession env st = Ret e1 st1 /\ sechan (cl st1) = Some ch).
  { destruct (Inv_holder HI Hc) as [Hs|(a & sv & r & Hs & _ & Ha & _ & Hr)].
    - rewrite (CloseSession_no_active_eq env st Hs). eauto.
    - rewrite (CloseSession_active_eq env st Hc Hs Ha Hr).
      destruct (closeResult env _); eauto. }
  destruct H as (e1 & st1 & H1 & H2).
  exists e1, st1. split; [assumption|].
  unfold Close, bind at 1. rewrite H1.
  unfold bind at 1, gets. rewrite H2. reflexivity.
Qed.

Lemma Close_returns_channel_error_witness :
  sechan (cl (run Examples.noCloseEnv [CallConnect] Examples.start)) = Some 1
  /\ exists e1 st1,
       CloseSession Examples.noCloseEnv
         (run Examples.noCloseEnv [CallConnect] Examples.start) = Ret e1 st1
       /\ Close Examples.noCloseEnv
            (run Examples.noCloseEnv [CallConnect] Examples.start)
          = Ret (chan_Close_result Examples.noCloseEnv
                   (history st1 ++ [EvChanClose 1]))
                (addEvents [EvChanClose 1] st1).
Proof.
  split; [reflexivity|].
  apply (@Close_returns_channel_error Examples.noCloseEnv
           "opc.tcp://localhost:4840" None None [CallConnect] 1).
  reflexivity.
Defined.




(** C9.  In every state, when [CloseSession] returns an error (or panics)
    the holder contains what it contained before, and when it returns nil the
    holder contains the typed nil pointer.  On a client with a channel and an
    active session it sends one [CloseSessionRequest] and returns; it returns
    nil exactly when the exchange delivered a [CloseSessionResponse], so the
    holder is cleared only then, and on an error the session that was active
    is still active. *)
Theorem CloseSession_clears_only_on_success env st :
  match CloseSession env st with
  | Ret None st' => session (cl st') = atomic.OfSessionPtr None
  | Ret (Some _) st' => session (cl st') = session (cl st)
  | Panic _ st' => session (cl st') = session (cl st)
  end
  /\ forall ch a sv r,
      sechan (cl st) = Some ch ->
      session (cl st) = atomic.OfSessionPtr (Some a) ->
      nth_error (heap st) a = Some sv ->
      resp sv = Some r ->
      let ev :=
        EvSend ch (ua.CloseSessionRequest true) (ua.AuthenticationToken r) in
      exists e st',
        CloseSession env st = Ret e st'
        /\ added st st' [ev]
        /\ (e = None <->
            Send_result env (history st ++ [ev])
            = Deliver ua.PCloseSessionResponse)
        /\ (e = None -> session (cl st') = atomic.OfSessionPtr None)
        /\ (e <> None -> session (cl st') = atomic.OfSessionPtr (Some a)).
Proof.
  split.
  - unfold CloseSession, bind at 1. rewrite GetSession_eq.
    destruct (session (cl st)) as [|p] eqn:Hs; [exact Hs|].
    unfold bind at 1.
    assert (F : frames (fun s => session (cl s) = atomic.OfSessionPtr p)
                  (closeSession env p)).
    { apply frames_closeSession. intros evs s H. exact H. }
    specialize (F st Hs).
    destruct (closeSession env p st) as [[err|] st1|msg st1];
      [exact F | reflexivity | exact F].
  - intros ch a sv r Hc Hs Ha Hr ev.
    rewrite (CloseSession_active_eq env st Hc Hs Ha Hr). fold ev.
    unfold closeResult, closeHandler.
    destruct (Send_result env (history st ++ [ev])) as [e|v].
    + exists (Some e), (addEvents [ev] st). split; [reflexivity|].
      split; [reflexivity|]. split; [split; discriminate|].
      split; [discriminate | intros _; exact Hs].
    + destruct v;
        try (eexists (Some _), (addEvents [ev] st); split; [reflexivity|];
             split; [reflexivity|]; split; [split; discriminate|];
             split; [discriminate | intros _; exact Hs]).
      exists None, (withClient (setSession (atomic.OfSessionPtr None))
                      (addEvents [ev] st)).
      split; [reflexivity|]. split; [reflexivity|].
      split; [split; reflexivity|]. split; [reflexivity | congruence].
Qed.

Lemma CloseSession_clears_only_on_success_witness :
  exists e st',
    CloseSession Examples.noCloseEnv Inputs.twoSessions = Ret e st'
    /\ e <> None
    /\ session (cl st') = atomic.OfSessionPtr (Some 0).
Proof.
  destruct (proj2 (@CloseSession_clears_only_on_success Examples.noCloseEnv
                     Inputs.twoSessions) 1 0
              (newSession None
                 {| ua.SessionID := 6%Z; ua.AuthenticationToken := Some 6%Z;
                    ua.RevisedSessionTimeout := 60000%Z; ua.ServerNonce := [] |})
              {| ua.SessionID := 6%Z; ua.AuthenticationToken := Some 6%Z;
                 ua.RevisedSessionTimeout := 60000%Z; ua.ServerNonce := [] |}
              eq_refl eq_refl eq_refl eq_refl)
    as (e & st' & H1 & _ & H2 & _ & H3).
  exists e, st'. split; [exact H1|].
  assert (He : e <> None).
  { intros E. apply H2 in E. vm_compute in E. discriminate. }
  split; [exact He | exact (H3 He)].
Defined.

(** C10.  The holder is initialised by the first [Dial] only: a [Dial] on
    a client whose [once] has not run leaves the typed nil pointer in the
    holder, a later [Dial] leaves the holder as it finds it.  On a client
    driven by any program that never invoked [Dial] (directly or through
    [Connect]), [Session], [Send], [CloseSession], [Close] and [GetEndpoints]
    all panic on the nil interface and change nothing.  After any program
    that invoked [Dial] at least once, [Session] returns a (possibly nil)
    session pointer. *)
Theorem holder_initialised_by_first_Dial env url cf scf ks :
  let st := run env ks (initState (newClient url cf scf)) in
  (forall dcf s,
      session (cl (finalState (Dial env dcf s)))
      = (if once (cl s) then session (cl s) else atomic.OfSessionPtr None)
      /\ once (cl (finalState (Dial env dcf s))) = true)
  /\ once (cl (initState (newClient url cf scf))) = false
  /\ (existsb invokesDial ks = false ->
      GetSession st = Panic panicNilAssert st
      /\ (forall (L : Type) req (h : ua.Response -> M (L * error)) l0,
             Send env req h l0 st = Panic panicNilAssert st)
      /\ CloseSession env st = Panic panicNilAssert st
      /\ Close env st = Panic panicNilAssert st
      /\ GetEndpoints env st = Panic panicNilAssert st)
  /\ (existsb invokesDial ks = true ->
      exists p, GetSession st = Ret p st).
Proof.
  intros st. split; [intros; apply Dial_holder|].
  split; [reflexivity|]. split.
  - intros Hks.
    assert (Hu : undialed st).
    { apply run_undialed; [assumption | now split]. }
    destruct Hu as [Hs _].
    split; [now apply GetSession_uninitialised|].
    split; [intros; now apply Send_uninitialised|].
    split; [now apply CloseSession_uninitialised|].
    split; [now apply Close_uninitialised | now apply GetEndpoints_uninitialised].
  - intros Hks.
    pose proof (reachable_Inv env url cf scf ks) as HI. fold st in HI.
    rewrite Hks in HI. pose proof (inv_init HI eq_refl) as Hn.
    rewrite GetSession_eq. destruct (session (cl st)); [congruence | eauto].
Qed.

Lemma holder_initialised_by_first_Dial_witness :
  (existsb invokesDial [CallCreateSession None; CallNewSession;
                        CallActivateSession (Some 0)] = false
   /\ GetSession (run Examples.goodEnv
                    [CallCreateSession None; CallNewSession;
                     CallActivateSession (Some 0)] Examples.start)
      = Panic panicNilAssert
          (run Examples.goodEnv
             [CallCreateSession None; CallNewSession;
              CallActivateSession (Some 0)] Examples.start))
  /\ (existsb invokesDial [CallDial None; CallCloseSession] = true
      /\ exists p,
           GetSession (run Examples.goodEnv [CallDial None; CallCloseSession]
                         Examples.start)
           = Ret p (run Examples.goodEnv [CallDial None; CallCloseSession]
                      Examples.start)).
Proof.
  split.
  - split; [reflexivity|].
    destruct (@holder_initialised_by_first_Dial Examples.goodEnv
                "opc.tcp://localhost:4840" None None
                [CallCreateSession None; CallNewSession;
                 CallActivateSession (Some 0)])
      as (_ & _ & H & _).
    exact (proj1 (H eq_refl)).
  - split; [reflexivity|].
    destruct (@holder_initialised_by_first_Dial Examples.goodEnv
                "opc.tcp://localhost:4840" None None
                [CallDial None; CallCloseSession])
      as (_ & _ & _ & H).
    exact (H eq_refl).
Defined.

(** ** A connected client does not panic *)

Lemma total_ret (P : State -> Prop) A (a : A) : total P (ret a).
Proof. now apply hoare_ret. Qed.

Lemma total_gets (P : State -> Prop) A (f : State -> A) : total P (gets f).
Proof. now apply hoare_gets. Qed.

Lemma total_bind (P : State -> Prop) A B (m : M A) (k : A -> M B) :
  total P m -> (forall a, total P (k a)) -> total P (bind m k).
Proof. intros Hm Hk. eapply hoare_bind; [exact Hm | exact Hk]. Qed.

Lemma total_returns (P : State -> Prop) A (m : M A) st :
  total P m -> P st -> exists a st', m st = Ret a st' /\ P st'.
Proof.
  intros H HP. specialize (H st HP).
  destruct (m st) as [a st'|msg st']; [eauto | contradiction].
Qed.

Lemma total_may_panic (P : State -> Prop) A (m : M A) :
  total P m -> frames P m.
Proof.
  intros H. eapply hoare_conseq; [exact H| | |]; simpl; auto. contradiction.
Qed.

Section Connected.

Variable env : Env.
Variable ch : nat.
Variable d : bool.
Variable R0 : list addr.

Local Abbreviation C := (connectedTo ch d R0).

Lemma connectedTo_addEvents evs st : C st -> C (addEvents evs st).
Proof. intros [HI Hc]. split; [now apply Inv_addEvents | exact Hc]. Qed.

Lemma total_emit e : total C (emit e).
Proof. apply hoare_modify. intros st. apply (connectedTo_addEvents [e]). Qed.

Lemma connectedTo_holder st :
  C st ->
  session (cl st) = atomic.OfSessionPtr None
  \/ exists a sv r,
       session (cl st) = atomic.OfSessionPtr (Some a)
       /\ In a (returned st)
       /\ nth_error (heap st) a = Some sv
       /\ cfg sv <> None
       /\ resp sv = Some r.
Proof. intros [HI Hc]. exact (Inv_holder HI Hc). Qed.

Lemma total_GetSession : total C GetSession.
Proof.
  intros st HC. rewrite GetSession_eq.
  destruct (connectedTo_holder HC) as [Hs|(a & sv & r & Hs & _)];
    now rewrite Hs.
Qed.

Lemma total_sechan_Send (L : Type) req tok
    (h : ua.Response -> M (L * error)) l0 :
  (forall v, total C (h v)) ->
  total C (sechan_Send env (Some ch) req tok h l0).
Proof.
  intros Hh st HC. rewrite sechan_Send_eq.
  pose proof (connectedTo_addEvents [EvSend ch req tok] HC) as HC'.
  destruct (Send_result env _) as [e|v]; [assumption|].
  apply (Hh v _ HC').
Qed.

Lemma total_Send (L : Type) req (h : ua.Response -> M (L * error)) l0 :
  (forall v, total C (h v)) -> total C (Send env req h l0).
Proof.
  intros Hh st HC. pose proof HC as [HI Hc].
  destruct (connectedTo_holder HC) as [Hs|(a & sv & r & Hs & _ & Ha & _ & Hr)].
  - rewrite (Send_no_session env req h l0 st Hs), Hc.
    now apply total_sechan_Send.
  - rewrite (Send_active_session env req h l0 st Hs Ha Hr), Hc.
    now apply total_sechan_Send.
Qed.

Lemma total_closeSession s : total C (closeSession env s).
Proof.
  unfold closeSession. destruct s as [a|]; [|apply total_ret].
  apply total_bind; [|intros; apply total_ret].
  apply total_Send. intros v. destruct v; apply total_ret.
Qed.

Lemma total_session_Store p :
  hoare (fun st => C st /\ forall a, p = Some a -> In a (returned st))
    (session_Store (atomic.OfSessionPtr p))
    (fun _ st => C st /\ session (cl st) = atomic.OfSessionPtr p)
    (fun _ => False).
Proof.
  intros st [[HI Hc] Hp]. simpl. split; [split|reflexivity].
  - apply Inv_true_any. now apply (@Inv_setSession d R0 p st).
  - exact Hc.
Qed.

Lemma total_CloseSession : total C (CloseSession env).
Proof.
  unfold CloseSession.
  apply total_bind; [apply total_GetSession|]. intros s.
  apply total_bind; [apply total_closeSession|]. intros e.
  destruct e as [err|]; [apply total_ret|].
  apply total_bind; [|intros; apply total_ret].
  eapply hoare_conseq; [apply (@total_session_Store None)| | |]; simpl; auto.
  - intros st HC; split; [assumption | discriminate].
  - now intros _ st [HC _].
Qed.

Lemma total_GetEndpoints : total C (GetEndpoints env).
Proof.
  unfold GetEndpoints.
  apply total_bind; [apply total_gets|]. intros c.
  apply total_Send. intros v. destruct v; apply total_ret.
Qed.

(** [Close] returns, and the last thing it does is close the channel. *)
Lemma hoare_Close_connected :
  hoare C (Close env)
    (fun _ st => C st /\ finalEvent (history st) = Some (EvChanClose ch))
    (fun _ => False).
Proof.
  unfold Close.
  eapply hoare_bind; [apply total_CloseSession|]. intros ?.
  intros st HC. pose proof HC as [HI Hc].
  unfold bind, gets. rewrite Hc. simpl.
  split; [apply (connectedTo_addEvents [EvChanClose ch] HC)|].
  unfold finalEvent. rewrite map_app. simpl. now rewrite last_last.
Qed.

Lemma total_Close : total C (Close env).
Proof.
  eapply hoare_conseq; [apply hoare_Close_connected| | |]; simpl; auto.
  now intros _ st [HC _].
Qed.

Lemma connectedTo_CreateSession scf st :
  C st ->
  exists p e st',
    CreateSession env scf st = Ret (p, e) st'
    /\ C st'
    /\ session (cl st') = session (cl st)
    /\ (e = None ->
        exists a rsp,
          p = Some a
          /\ nth_error (heap st) a = None
          /\ nth_error (heap st') a = Some (newSession scf rsp)
          /\ In a (returned st')).
Proof.
  intros HC. pose proof HC as [HI Hc].
  pose proof (@keeps_CreateSession env d R0 scf st HI) as HK.
  rewrite (CreateSession_channel env scf st Hc) in *.
  unfold createOutcome in *.
  destruct (rand_Read_result env _) as [e|bs].
  { eexists _, _, _. split; [reflexivity|]. split; [now split|].
    split; [reflexivity | discriminate]. }
  cbv zeta in *. destruct (Send_result env _) as [e|v].
  { eexists _, _, _. split; [reflexivity|]. split; [now split|].
    split; [reflexivity | discriminate]. }
  destruct v;
    try (eexists _, _, _; split; [reflexivity|]; split; [now split|];
         split; [reflexivity | discriminate]).
  eexists _, _, _. split; [reflexivity|]. split; [now split|].
  split; [reflexivity|]. intros _.
  exists (List.length (heap st)), r. split; [reflexivity|].
  split; [apply nth_error_None; lia|]. split.
  - cbn [heap]. rewrite nth_error_app2 by lia. now rewrite Nat.sub_diag.
  - cbn [returned]. now left.
Qed.

Lemma total_CreateSession scf : total C (CreateSession env scf).
Proof.
  intros st HC.
  destruct (connectedTo_CreateSession scf HC) as (p & e & st' & -> & HC' & _).
  exact HC'.
Qed.

End Connected.

(** ** [ActivateSession] on a connected client *)

(** The request was not answered by an [ActivateSessionResponse]: the error
    is returned and nothing else happens. *)
Lemma ActivateSession_not_activated env st ch (a : addr) sv scf rsp :
  sechan (cl st) = Some ch ->
  nth_error (heap st) a = Some sv ->
  cfg sv = Some scf ->
  resp sv = Some rsp ->
  match Send_result env (history st ++ [activateEvent ch sv scf rsp]) with
  | Fail e =>
      ActivateSession env (Some a) st
      = Ret (Some e) (addEvents [activateEvent ch sv scf rsp] st)
  | Deliver (ua.PActivateSessionResponse _) => True
  | Deliver v =>
      ActivateSession env (Some a) st
      = Ret (Some ("invalid response. Got " ++ ua.typeName v
                   ++ ", want ActivateSessionResponse"))
            (addEvents [activateEvent ch sv scf rsp] st)
  end.
Proof.
  intros Hc Ha Hcfg Hresp.
  destruct (Send_result env (history st ++ [activateEvent ch sv scf rsp]))
    as [e|v] eqn:E; [|destruct v; try exact I];
    unfold ActivateSession, bind at 1, deref; rewrite Ha, Hcfg;
    unfold bind at 1, gets; rewrite Hresp, Hc;
    unfold bind at 1; rewrite sechan_Send_eq;
    fold (activateEvent ch sv scf rsp); rewrite E; reflexivity.
Qed.

Section ConnectedActivate.

Variable env : Env.
Variable ch : nat.
Variable d : bool.
Variable R0 : list addr.

(** [ActivateSession] of a session [CreateSession] returned, on a connected
    client: it returns; on success the session is the active one, on an error
    the holder is as before. *)
Lemma connectedTo_ActivateSession a st :
  connectedTo ch d R0 st ->
  In a (returned st) ->
  exists e st',
    ActivateSession env (Some a) st = Ret e st'
    /\ connectedTo ch d R0 st'
    /\ (e = None -> session (cl st') = atomic.OfSessionPtr (Some a))
    /\ (e <> None -> session (cl st') = session (cl st)).
Proof.
  intros HC Hin. pose proof HC as [HI Hc].
  destruct (inv_returned HI _ Hin) as (sv & Ha & Hcfg & Hresp).
  destruct (cfg sv) as [scf|] eqn:Ecfg; [|congruence].
  destruct (resp sv) as [rsp|] eqn:Eresp; [|congruence].
  assert (HC1 : connectedTo ch d R0 (addEvents [activateEvent ch sv scf rsp] st))
    by (split; [now apply Inv_addEvents | exact Hc]).
  pose proof (@ActivateSession_not_activated env st ch a sv scf rsp
                Hc Ha Ecfg Eresp) as Hrej.
  destruct (Send_result env (history st ++ [activateEvent ch sv scf rsp])) as [e|v] eqn:Esend.
  { rewrite Hrej. eexists _, _. split; [reflexivity|].
    split; [exact HC1|]. split; [discriminate | reflexivity]. }
  destruct v as [r0|nonce| |r0|t];
    try (rewrite Hrej; eexists _, _; split; [reflexivity|];
         split; [exact HC1|]; split; [discriminate | reflexivity]).
  clear Hrej.
  destruct (Inv_holder HI Hc) as [Hs|(p & pv & pr & Hs & _ & Hp & _ & Hpr)].
  - rewrite (@ActivateSession_first env st ch a sv scf rsp
               Hc Ha Ecfg Eresp nonce Esend Hs).
    eexists _, _. split; [reflexivity|].
    split; [|split; [reflexivity | congruence]].
    split; [|exact Hc].
    apply Inv_true_any.
    apply (@Inv_setSession d R0); [now apply Inv_addEvents|].
    now intros a' [= <-].
  - destruct (closeResult env
                (history st ++ [activateEvent ch sv scf rsp;
                                closePriorEvent ch pr]))
      as [err|] eqn:Eclose.
    + rewrite (@ActivateSession_prior_close_fails env st ch a sv scf rsp
                 Hc Ha Ecfg Eresp nonce Esend p pv pr Hs Hp Hpr err Eclose).
      eexists _, _. split; [reflexivity|].
      split; [|split; [discriminate | reflexivity]].
      split; [now apply Inv_addEvents | exact Hc].
    + rewrite (@ActivateSession_prior_closed env st ch a sv scf rsp
                 Hc Ha Ecfg Eresp nonce Esend p pv pr Hs Hp Hpr Eclose).
      eexists _, _. split; [reflexivity|].
      split; [|split; [reflexivity | congruence]].
      split; [|exact Hc].
      apply Inv_true_any.
    apply (@Inv_setSession d R0); [now apply Inv_addEvents|].
      now intros a' [= <-].
Qed.

(** Whatever pointer it is given, [ActivateSession] leaves a connected
    client connected, whether it returns or panics. *)
Lemma frames_ActivateSession_connected s :
  frames (connectedTo ch d R0) (ActivateSession env s).
Proof.
  intros st HC. pose proof HC as [HI Hc]. unfold ActivateSession.
  destruct s as [a|]; [|exact HC].
  unfold bind at 1, deref.
  destruct (nth_error (heap st) a) as [sv|] eqn:Ha; [|exact HC].
  destruct (cfg sv) as [scf|] eqn:Hcfg; [|exact HC].
  unfold bind at 1, gets.
  destruct (resp sv) as [rsp|] eqn:Hresp; [|exact HC].
  assert (Hin : In a (returned st)).
  { eapply Inv_configured; [exact HI | exact Ha | congruence]. }
  assert (HC' : connectedTo ch d (a :: R0) st).
  { split; [exact (Inv_learn a HI Hin) | exact Hc]. }
  rewrite Hc.
  match goal with
  | |- match ?m st with _ => _ end =>
      assert (H : total (connectedTo ch d (a :: R0)) m)
  end.
  { apply total_bind; [|intros; apply total_ret].
    apply total_sechan_Send. intros v.
    destruct v; try apply total_ret.
    apply total_bind; [apply total_CloseSession|]. intros e.
    destruct e as [err|].
    - apply total_bind; [apply total_closeSession | intros; apply total_ret].
    - apply total_bind; [|intros; apply total_ret].
      eapply hoare_conseq;
        [apply (@total_session_Store ch d (a :: R0) (Some a))| | |];
        simpl; auto.
      + intros st' HC''; split; [assumption|].
        intros a' E; injection E as <-.
        apply (inv_keep (proj1 HC'')). now left.
      + now intros _ st' [HC'' _]. }
  specialize (H st HC').
  match goal with
  | |- match ?r with _ => _ end => destruct r as [x st'|msg st']
  end; [|contradiction].
  destruct H as [HI' Hc']. split; [now apply Inv_forget with a | exact Hc'].
Qed.

End ConnectedActivate.

(** ** [Dial] in closed form *)

Section DialForm.

Variable env : Env.
Variable cf : option uasc.Config.
Variable st : State.

Local Abbreviation url := (EndpointURL (cl st)).
Local Abbreviation conn := (List.length (history st ++ [EvDial url])).
Local Abbreviation evDial := (EvDial url).
Local Abbreviation evNew := (EvNewSecureChannel url conn (dialConfig env cf)).

Ltac dial_unfold :=
  unfold Dial, bind, once_Do, afterOnce, gets, uacp_Dial, NewSecureChannel,
    sechan_Open, conn_Close, bind, emit, modify, gets, dialConfig,
    session_Store, atomic_Store, addEvents, withClient in *.

Ltac dial_step H :=
  cbn [cl heap history returned sechan EndpointURL Config SessionConfig
       session once ret setSession setOnce setSechan] in *;
  rewrite <- ?app_assoc in *; cbn [app] in *; rewrite H.

Ltac dial_done :=
  cbn [cl heap history returned sechan EndpointURL Config SessionConfig
       session once ret setSession setOnce setSechan];
  rewrite <- ?app_assoc; cbn [app]; reflexivity.

Lemma Dial_connected ch :
  sechan (cl st) = Some ch ->
  Dial env cf st = Ret (Some errChannelAlreadyConnected) (afterOnce st).
Proof.
  intros Hc. unfold Dial, bind, once_Do, afterOnce, gets.
  destruct (once (cl st)); simpl; now rewrite Hc.
Qed.

(** [uacp.Dial] fails: its error is returned. *)
Lemma Dial_transport_fails e :
  sechan (cl st) = None ->
  uacp_Dial_result env (history st ++ [evDial]) = Some e ->
  Dial env cf st = Ret (Some e) (addEvents [evDial] (afterOnce st)).
Proof.
  intros Hc H1.
  dial_unfold. destruct (once (cl st));
    dial_step Hc; dial_step H1; dial_done.
Qed.

(** [uasc.NewSecureChannel] fails: the connection is closed again. *)
Lemma Dial_channel_fails e :
  sechan (cl st) = None ->
  uacp_Dial_result env (history st ++ [evDial]) = None ->
  NewSecureChannel_result env (history st ++ [evDial; evNew]) = Some e ->
  Dial env cf st
  = Ret (Some e) (addEvents [evDial; evNew; EvConnClose conn] (afterOnce st)).
Proof.
  intros Hc H1 H2.
  dial_unfold. destruct (once (cl st));
    dial_step Hc; dial_step H1; dial_step H2; dial_done.
Qed.

(** [sechan.Open] fails: the connection is closed again. *)
Lemma Dial_open_fails e :
  sechan (cl st) = None ->
  uacp_Dial_result env (history st ++ [evDial]) = None ->
  NewSecureChannel_result env (history st ++ [evDial; evNew]) = None ->
  Open_result env (history st ++ [evDial; evNew; EvOpen conn]) = Some e ->
  Dial env cf st
  = Ret (Some e)
        (addEvents [evDial; evNew; EvOpen conn; EvConnClose conn]
           (afterOnce st)).
Proof.
  intros Hc H1 H2 H3.
  dial_unfold. destruct (once (cl st));
    dial_step Hc; dial_step H1; dial_step H2; dial_step H3; dial_done.
Qed.

(** Everything succeeds: the channel is installed. *)
Lemma Dial_succeeds :
  sechan (cl st) = None ->
  uacp_Dial_result env (history st ++ [evDial]) = None ->
  NewSecureChannel_result env (history st ++ [evDial; evNew]) = None ->
  Open_result env (history st ++ [evDial; evNew; EvOpen conn]) = None ->
  Dial env cf st
  = Ret None
        (withClient (setSechan (Some conn))
           (addEvents [evDial; evNew; EvOpen conn] (afterOnce st))).
Proof.
  intros Hc H1 H2 H3.
  dial_unfold. destruct (once (cl st));
    dial_step Hc; dial_step H1; dial_step H2; dial_step H3; dial_done.
Qed.

End DialForm.

(** ** The channel pointer, once set, stays *)

Section ConnectedPrograms.

Variable env : Env.
Variable ch : nat.
Variable d : bool.
Variable R0 : list addr.

Lemma connectedTo_afterOnce st :
  connectedTo ch d R0 st -> connectedTo ch d R0 (afterOnce st).
Proof.
  intros [HI Hc]. unfold afterOnce. destruct (once (cl st)); [now split|].
  split; [|exact Hc].
  apply Inv_setOnce; [|simpl; discriminate].
  apply Inv_true_any. apply (@Inv_setSession d R0); [exact HI | discriminate].
Qed.

Lemma connectedTo_exec k st :
  connectedTo ch d R0 st -> connectedTo ch d R0 (exec env k st).
Proof.
  intros HC. pose proof HC as [HI Hc].
  assert (G : forall A (m : M A),
             frames (connectedTo ch d R0) m ->
             connectedTo ch d R0 (finalState (m st))).
  { intros A m Hm. specialize (Hm st HC). now destruct (m st). }
  destruct k; cbn [exec].
  - unfold Connect, bind, gets. now rewrite Hc.
  - rewrite (Dial_connected env cf st Hc). now apply connectedTo_afterOnce.
  - apply G, total_may_panic, total_Close.
  - apply G, total_may_panic, total_GetSession.
  - apply G, total_may_panic, total_CreateSession.
  - apply G, frames_ActivateSession_connected.
  - apply G, total_may_panic, total_CloseSession.
  - unfold DetachSession, bind. rewrite GetSession_eq.
    now destruct (session (cl st)).
  - apply G, total_may_panic, total_Send. intros; apply total_ret.
  - apply G, total_may_panic, total_GetEndpoints.
  - split; [apply (Inv_alloc_zero HI) | exact Hc].
Qed.

Lemma connectedTo_run ks st :
  connectedTo ch d R0 st -> connectedTo ch d R0 (run env ks st).
Proof.
  revert st. induction ks as [|k ks IH]; intros st HC; simpl; [assumption|].
  apply IH. now apply connectedTo_exec.
Qed.

End ConnectedPrograms.

(** ** [Connect] on a client without a channel *)

Lemma Connect_outcome env d R0 st :
  Inv d R0 st ->
  sechan (cl st) = None ->
  exists e st',
    Connect env st = Ret e st'
    /\ (e = None ->
        exists ch a,
          sechan (cl st') = Some ch
          /\ session (cl st') = atomic.OfSessionPtr (Some a)
          /\ In a (returned st')
          /\ nth_error (heap st) a = None)
    /\ (e <> None ->
        sechan (cl st') = None
        \/ exists ch,
             sechan (cl st') = Some ch
             /\ finalEvent (history st') = Some (EvChanClose ch)).
Proof.
  intros HI Hc. unfold Connect, bind at 1, gets. rewrite Hc.
  unfold bind at 1.
  pose proof (@hoare_Dial env d R0 (Config (cl st)) st HI) as HD.
  set (evD := EvDial (EndpointURL (cl st))) in *.
  set (cn := List.length (history st ++ [evD])) in *.
  set (evN := EvNewSecureChannel (EndpointURL (cl st)) cn
                (dialConfig env (Config (cl st)))) in *.
  destruct (uacp_Dial_result env (history st ++ [evD])) as [e|] eqn:E1.
  { rewrite (Dial_transport_fails env (Config (cl st)) st Hc E1).
    eexists _, _. split; [reflexivity|]. split; [discriminate|].
    intros _. left. unfold afterOnce. now destruct (once (cl st)). }
  destruct (NewSecureChannel_result env (history st ++ [evD; evN]))
    as [e|] eqn:E2.
  { rewrite (Dial_channel_fails env (Config (cl st)) st Hc E1 E2).
    eexists _, _. split; [reflexivity|]. split; [discriminate|].
    intros _. left. unfold afterOnce. now destruct (once (cl st)). }
  destruct (Open_result env (history st ++ [evD; evN; EvOpen cn]))
    as [e|] eqn:E3.
  { rewrite (Dial_open_fails env (Config (cl st)) st Hc E1 E2 E3).
    eexists _, _. split; [reflexivity|]. split; [discriminate|].
    intros _. left. unfold afterOnce. now destruct (once (cl st)). }
  rewrite (Dial_succeeds env (Config (cl st)) st Hc E1 E2 E3) in *.
  fold evD cn evN in HD |- *. cbv beta in HD.
  match goal with
  | HD : Inv true R0 ?s |- _ => set (s1 := s) in *
  end.
  assert (HC1 : connectedTo cn true R0 s1) by (split; [exact HD | reflexivity]).
  assert (Hheap : heap s1 = heap st).
  { unfold s1, afterOnce. now destruct (once (cl st)). }
  unfold bind at 1.
  destruct (connectedTo_CreateSession env (SessionConfig (cl st)) HC1)
    as (p & e & s2 & -> & HC2 & _ & Hnew).
  assert (HClose : forall s, connectedTo cn true R0 s ->
            forall (err : string),
            exists st',
              bind (Close env) (fun _ => ret (Some err)) s = Ret (Some err) st'
              /\ sechan (cl st') = Some cn
              /\ finalEvent (history st') = Some (EvChanClose cn)).
  { intros s HCs err. pose proof (@hoare_Close_connected env cn true R0 s HCs) as H.
    unfold bind. destruct (Close env s) as [x s'|msg s']; [|contradiction].
    destruct H as [[_ Hc'] Hl]. exists s'. auto. }
  destruct e as [err|].
  { destruct (HClose s2 HC2 err) as (st' & -> & Hc' & Hl).
    eexists _, _. split; [reflexivity|]. split; [discriminate|].
    intros _. right. eauto. }
  destruct (Hnew eq_refl) as (a & rsp & -> & Hfresh & _ & Hin).
  unfold bind at 1.
  destruct (connectedTo_ActivateSession env a HC2 Hin)
    as (e & s3 & -> & HC3 & Hok & _).
  destruct e as [err|].
  - destruct (HClose s3 HC3 err) as (st' & -> & Hc' & Hl).
    eexists _, _. split; [reflexivity|]. split; [discriminate|].
    intros _. right. eauto.
  - eexists _, _. split; [reflexivity|]. split; [|congruence].
    intros _. exists cn, a. destruct HC3 as [HI3 Hc3].
    split; [exact Hc3|]. split; [now apply Hok|].
    split; [|now rewrite <- Hheap].
    apply (inv_active HI3). now apply Hok.
Qed.

(** ** Properties that every call keeps *)

Section FrameCalls.

Variable env : Env.
Variable P : State -> Prop.
Hypothesis P_client : forall f s, P s -> P (withClient f s).
Hypothesis P_events : forall evs s, P s -> P (addEvents evs s).
Hypothesis P_alloc : forall x s,
    P s ->
    P {| cl := cl s; heap := heap s ++ [x]; history := history s;
         returned := returned s |}.
Hypothesis P_created : forall x s,
    P s ->
    P {| cl := cl s; heap := heap s ++ [x]; history := history s;
         returned := List.length (heap s) :: returned s |}.

Lemma frames_CreateSession scf : frames P (CreateSession env scf).
Proof.
  intros st HP. destruct (sechan (cl st)) as [ch|] eqn:Hc.
  - rewrite (CreateSession_channel env scf st Hc). unfold createOutcome.
    destruct (rand_Read_result env _); [now apply P_events|]. cbv zeta.
    destruct (Send_result env _) as [e|v]; [now apply P_events|].
    destruct v; try now apply P_events.
    apply (P_created _ (s := addEvents _ st)). now apply P_events.
  - now rewrite (CreateSession_no_channel env scf st Hc).
Qed.

Lemma frames_Connect : frames P (Connect env).
Proof.
  unfold Connect.
  apply frames_bind; [now apply frames_gets|]. intros c.
  destruct (sechan c); [now apply frames_ret|].
  apply frames_bind; [now apply frames_Dial|].
  intros [err|]; [now apply frames_ret|].
  apply frames_bind; [apply frames_CreateSession|].
  assert (HClose : forall err : string,
             frames P (bind (Close env) (fun _ => ret (Some err)))).
  { intros err. apply frames_bind; [now apply frames_Close|].
    intros; now apply frames_ret. }
  intros [s [err|]]; [apply HClose|].
  apply frames_bind; [now apply frames_ActivateSession|].
  intros [err|]; [apply HClose | now apply frames_ret].
Qed.

Lemma frames_exec k st : P st -> P (exec env k st).
Proof.
  intros HP.
  assert (G : forall A (m : M A), frames P m -> P (finalState (m st))).
  { intros A m Hm. specialize (Hm st HP). now destruct (m st). }
  destruct k; cbn [exec]; try apply G.
  - apply frames_Connect.
  - now apply frames_Dial.
  - now apply frames_Close.
  - now apply frames_GetSession.
  - apply frames_CreateSession.
  - now apply frames_ActivateSession.
  - now apply frames_CloseSession.
  - now apply frames_DetachSession.
  - apply frames_Send; [assumption|]. intros; now apply frames_ret.
  - now apply frames_GetEndpoints.
  - intros s H. now apply P_alloc.
Qed.

Lemma frames_run ks st : P st -> P (run env ks st).
Proof.
  revert st. induction ks as [|k ks IH]; intros st HP; simpl; [assumption|].
  apply IH. now apply frames_exec.
Qed.

End FrameCalls.

(** ** Further properties of the code *)

(** X1.  [Dial] on a client without a channel always returns.  It returns
    nil exactly when it has installed a channel, and then the last thing it
    did was to open that channel and it closed no connection.  When it
    returns an error no channel is installed, and if the transport
    connection had been made (a secure channel was being set up on it) the
    last thing it did was to close that connection.  It allocates no
    session. *)
Theorem Dial_installs_or_cleans_up env cf st :
  sechan (cl st) = None ->
  exists e st' evs,
    Dial env cf st = Ret e st'
    /\ added st st' evs
    /\ heap st' = heap st
    /\ (e = None ->
        exists ch,
          sechan (cl st') = Some ch
          /\ finalEvent evs = Some (EvOpen ch)
          /\ forall c, ~ In (EvConnClose c) evs)
    /\ (e <> None ->
        sechan (cl st') = None
        /\ forall u c x, In (EvNewSecureChannel u c x) evs ->
                         finalEvent evs = Some (EvConnClose c)).
Proof.
  intros Hc.
  assert (Hh : heap (afterOnce st) = heap st)
    by (unfold afterOnce; now destruct (once (cl st))).
  assert (Hi : history (afterOnce st) = history st)
    by (unfold afterOnce; now destruct (once (cl st))).
  assert (Hs : sechan (cl (afterOnce st)) = None)
    by (unfold afterOnce; now destruct (once (cl st))).
  set (evD := EvDial (EndpointURL (cl st))).
  set (cn := List.length (history st ++ [evD])).
  set (evN := EvNewSecureChannel (EndpointURL (cl st)) cn (dialConfig env cf)).
  destruct (uacp_Dial_result env (history st ++ [evD])) as [e|] eqn:E1.
  { rewrite (Dial_transport_fails env cf st Hc E1).
    exists (Some e), (addEvents [evD] (afterOnce st)), [evD].
    split; [reflexivity|]. split; [unfold added; simpl; now rewrite Hi|].
    split; [exact Hh|]. split; [discriminate|]. intros _.
    split; [exact Hs|]. intros u c x [H|[]]; discriminate. }
  destruct (NewSecureChannel_result env (history st ++ [evD; evN]))
    as [e|] eqn:E2.
  { rewrite (Dial_channel_fails env cf st Hc E1 E2).
    eexists (Some e), _, [evD; evN; EvConnClose cn].
    split; [reflexivity|]. split; [unfold added; simpl; now rewrite Hi|].
    split; [exact Hh|]. split; [discriminate|]. intros _.
    split; [exact Hs|].
    intros u c x [H|[H|[H|[]]]]; try discriminate.
    now injection H as _ <- _. }
  destruct (Open_result env (history st ++ [evD; evN; EvOpen cn]))
    as [e|] eqn:E3.
  { rewrite (Dial_open_fails env cf st Hc E1 E2 E3).
    eexists (Some e), _, [evD; evN; EvOpen cn; EvConnClose cn].
    split; [reflexivity|]. split; [unfold added; simpl; now rewrite Hi|].
    split; [exact Hh|]. split; [discriminate|]. intros _.
    split; [exact Hs|].
    intros u c x [H|[H|[H|[H|[]]]]]; try discriminate.
    now injection H as _ <- _. }
  rewrite (Dial_succeeds env cf st Hc E1 E2 E3).
  eexists None, _, [evD; evN; EvOpen cn].
  split; [reflexivity|]. split; [unfold added; simpl; now rewrite Hi|].
  split; [exact Hh|]. split; [|congruence]. intros _.
  exists cn. split; [reflexivity|]. split; [reflexivity|].
  intros c [H|[H|[H|[]]]]; discriminate.
Qed.

Lemma Dial_installs_or_cleans_up_witness :
  sechan (cl Examples.start) = None
  /\ exists e st' evs,
       Dial Servers.noChannel None Examples.start = Ret e st'
       /\ added Examples.start st' evs
       /\ e <> None
       /\ sechan (cl st') = None
       /\ finalEvent evs = Some (EvConnClose 1).
Proof.
  split; [reflexivity|].
  destruct (@Dial_installs_or_cleans_up Servers.noChannel None Examples.start
              eq_refl)
    as (e & st' & evs & H1 & H2 & _ & _ & H3).
  exists e, st', evs. split; [exact H1|]. split; [exact H2|].
  assert (He : e <> None).
  { intros ->. vm_compute in H1. discriminate. }
  split; [exact He|]. destruct (H3 He) as [H4 H5]. split; [exact H4|].
  apply (H5 "opc.tcp://localhost:4840" 1
            (dialConfig Servers.noChannel None)).
  vm_compute in H1. injection H1 as _ <-. vm_compute in H2.
  subst evs. right; left. reflexivity.
Defined.

(** X2.  Once a client holds a channel, no method clears or replaces the
    channel pointer, [Close] included: after any further program the client
    still holds the same channel, so [Connect] and [Dial] on it fail with
    their "already connected" errors.  A closed client cannot be connected
    again. *)
Theorem channel_pointer_is_never_reset env url cf scf ks ch ks' :
  let st := run env ks (initState (newClient url cf scf)) in
  sechan (cl st) = Some ch ->
  let st' := run env ks' st in
  sechan (cl st') = Some ch
  /\ Connect env st' = Ret (Some errAlreadyConnected) st'
  /\ forall dcf, exists st'',
       Dial env dcf st' = Ret (Some errChannelAlreadyConnected) st''
       /\ sechan (cl st'') = Some ch
       /\ history st'' = history st'.
Proof.
  intros st Hc st'.
  pose proof (reachable_Inv env url cf scf ks) as HI. fold st in HI.
  assert (HC : connectedTo ch (existsb invokesDial ks) [] st') by
    (apply connectedTo_run; now split).
  destruct HC as [_ Hc']. split; [exact Hc'|]. split.
  - unfold Connect, bind, gets. now rewrite Hc'.
  - intros dcf. rewrite (Dial_connected env dcf st' Hc'). eexists.
    split; [reflexivity|]. unfold afterOnce.
    now destruct (once (cl st')).
Qed.

Lemma channel_pointer_is_never_reset_witness :
  sechan (cl (run Examples.goodEnv [CallConnect] Examples.start)) = Some 1
  /\ Connect Examples.goodEnv
       (run Examples.goodEnv [CallClose]
          (run Examples.goodEnv [CallConnect] Examples.start))
     = Ret (Some errAlreadyConnected)
         (run Examples.goodEnv [CallClose]
            (run Examples.goodEnv [CallConnect] Examples.start)).
Proof.
  split; [reflexivity|].
  exact (proj1 (proj2 (@channel_pointer_is_never_reset Examples.goodEnv
                         "opc.tcp://localhost:4840" None None
                         [CallConnect] 1 [CallClose] eq_refl))).
Defined.

(** X3.  [Connect] on a client without a channel, after any program, always
    returns.  When it returns nil the client holds a channel and its active
    session is one [CreateSession] made during this call.  When it returns
    an error, either no channel was installed, or the channel opened during
    this call has been closed as the last action and the client still holds
    it. *)
Theorem Connect_all_or_closed env url cf scf ks :
  let st := run env ks (initState (newClient url cf scf)) in
  sechan (cl st) = None ->
  exists e st',
    Connect env st = Ret e st'
    /\ (e = None ->
        exists ch a,
          sechan (cl st') = Some ch
          /\ session (cl st') = atomic.OfSessionPtr (Some a)
          /\ In a (returned st')
          /\ nth_error (heap st) a = None)
    /\ (e <> None ->
        sechan (cl st') = None
        \/ exists ch,
             sechan (cl st') = Some ch
             /\ finalEvent (history st') = Some (EvChanClose ch)).
Proof.
  intros st Hc.
  pose proof (reachable_Inv env url cf scf ks) as HI. fold st in HI.
  exact (Connect_outcome env HI Hc).
Qed.

Lemma Connect_all_or_closed_witness :
  sechan (cl (run Servers.faulty [CallNewSession] Examples.start)) = None
  /\ exists e st',
       Connect Servers.faulty
         (run Servers.faulty [CallNewSession] Examples.start) = Ret e st'
       /\ e <> None
       /\ sechan (cl st') = Some 1
       /\ finalEvent (history st') = Some (EvChanClose 1).
Proof.
  split; [reflexivity|].
  destruct (@Connect_all_or_closed Servers.faulty
              "opc.tcp://localhost:4840" None None [CallNewSession] eq_refl)
    as (e & st' & H1 & _ & _).
  exists e, st'. split; [exact H1|].
  vm_compute in H1. injection H1 as <- <-.
  split; [discriminate|]. split; reflexivity.
Defined.

(** X4.  On a client that holds a channel, after any program, [Session],
    [CloseSession], [Close], [GetEndpoints], [CreateSession], [Connect],
    [Dial] and [Send] (with a handler that returns) all return: none of them
    panics.  So does [ActivateSession] of any session that [CreateSession]
    returned. *)
Theorem connected_client_does_not_panic env url cf scf ks ch :
  let st := run env ks (initState (newClient url cf scf)) in
  sechan (cl st) = Some ch ->
  returns (GetSession st)
  /\ returns (CloseSession env st)
  /\ returns (Close env st)
  /\ returns (GetEndpoints env st)
  /\ (forall sc, returns (CreateSession env sc st))
  /\ returns (Connect env st)
  /\ (forall dcf, returns (Dial env dcf st))
  /\ (forall req h, returns (Send env req (fun v => ret (tt, h v)) tt st))
  /\ (forall a, In a (returned st) -> returns (ActivateSession env (Some a) st)).
Proof.
  intros st Hc.
  pose proof (reachable_Inv env url cf scf ks) as HI. fold st in HI.
  assert (HC : connectedTo ch (existsb invokesDial ks) [] st) by now split.
  assert (G : forall A (m : M A),
             total (connectedTo ch (existsb invokesDial ks) []) m ->
             returns (m st)).
  { intros A m Hm. specialize (Hm st HC).
    destruct (m st); [exact I | contradiction]. }
  split; [apply G, total_GetSession|].
  split; [apply G, total_CloseSession|].
  split; [apply G, total_Close|].
  split; [apply G, total_GetEndpoints|].
  split; [intros sc; apply G, total_CreateSession|].
  split; [unfold Connect, bind, gets; now rewrite Hc|].
  split; [intros dcf; now rewrite (Dial_connected env dcf st Hc)|].
  split; [intros req h; apply G, total_Send; intros; apply total_ret|].
  intros a Hin.
  destruct (connectedTo_ActivateSession env a HC Hin) as (e & st' & -> & _).
  exact I.
Qed.

Lemma connected_client_does_not_panic_witness :
  sechan (cl Inputs.twoSessions) = Some 1
  /\ returns (Close Examples.noCloseEnv Inputs.twoSessions)
  /\ returns (ActivateSession Examples.noCloseEnv (Some 1) Inputs.twoSessions).
Proof.
  split; [reflexivity|].
  destruct (@connected_client_does_not_panic Examples.noCloseEnv
              "opc.tcp://localhost:4840" None None
              [CallConnect; CallCreateSession None] 1 eq_refl)
    as (_ & _ & H1 & _ & _ & _ & _ & _ & H2).
  split; [exact H1|]. apply H2. vm_compute. auto.
Defined.

(** X5.  No call modifies or removes an existing session object, forgets a
    session that [CreateSession] returned, or rewrites the history: after
    any program each session is what it was, in particular its
    authentication token. *)
Theorem sessions_are_never_modified env ks st a sv :
  nth_error (heap st) a = Some sv ->
  nth_error (heap (run env ks st)) a = Some sv
  /\ option_map tokenOf (nth_error (heap (run env ks st)) a)
     = Some (tokenOf sv)
  /\ incl (returned st) (returned (run env ks st))
  /\ exists evs, history (run env ks st) = (history st ++ evs)%list.
Proof.
  intros Ha.
  assert (Hkeep : nth_error (heap (run env ks st)) a = Some sv).
  { apply (@frames_run env (fun s => nth_error (heap s) a = Some sv));
      auto; intros; cbn [heap]; now apply nth_error_snoc_old. }
  split; [exact Hkeep|]. split; [now rewrite Hkeep|]. split.
  - apply (@frames_run env (fun s => incl (returned st) (returned s)));
      auto; [| apply incl_refl].
    intros x s H y Hy. right. now apply H.
  - apply (@frames_run env (fun s => exists evs,
                                history s = (history st ++ evs)%list));
      auto.
    + intros evs s [evs0 H]. exists (evs0 ++ evs)%list. cbn [history addEvents].
      now rewrite H, app_assoc.
    + exists []. now rewrite app_nil_r.
Qed.

Lemma sessions_are_never_modified_witness :
  nth_error (heap Inputs.connected) 0
  = Some (newSession None
            {| ua.SessionID := 6%Z; ua.AuthenticationToken := Some 6%Z;
               ua.RevisedSessionTimeout := 60000%Z; ua.ServerNonce := [] |})
  /\ option_map tokenOf
       (nth_error
          (heap (run Examples.goodEnv
                   [CallCreateSession None; CallActivateSession (Some 1);
                    CallClose] Inputs.connected)) 0)
     = Some (Some 6%Z).
Proof.
  split; [reflexivity|].
  exact (proj1 (proj2 (@sessions_are_never_modified Examples.goodEnv
                         [CallCreateSession None;
                          CallActivateSession (Some 1); CallClose]
                         Inputs.connected 0 _ eq_refl))).
Defined.

(** X6.  [ActivateSession] dereferences its argument before it sends
    anything: with a nil pointer, or with a [Session] that has no
    configuration or no response (such as a caller's own zero [Session]), it
    panics with a nil dereference and leaves the state as it was. *)
Theorem ActivateSession_panics_on_incomplete_session env st :
  ActivateSession env None st = Panic panicNilDeref st
  /\ forall a sv,
       nth_error (heap st) a = Some sv ->
       cfg sv = None \/ resp sv = None ->
       ActivateSession env (Some a) st = Panic panicNilDeref st.
Proof.
  split; [reflexivity|]. intros a sv Ha H.
  unfold ActivateSession, bind at 1, deref. rewrite Ha.
  destruct (cfg sv) as [scf|]; [|reflexivity].
  destruct H as [H|H]; [discriminate|].
  unfold bind, gets. now rewrite H.
Qed.

Lemma ActivateSession_panics_on_incomplete_session_witness :
  nth_error (heap (run Examples.goodEnv [CallNewSession] Inputs.connected)) 1
  = Some zeroSession
  /\ ActivateSession Examples.goodEnv (Some 1)
       (run Examples.goodEnv [CallNewSession] Inputs.connected)
     = Panic panicNilDeref
         (run Examples.goodEnv [CallNewSession] Inputs.connected).
Proof.
  split; [reflexivity|].
  apply (proj2 (@ActivateSession_panics_on_incomplete_session
                  Examples.goodEnv
                  (run Examples.goodEnv [CallNewSession] Inputs.connected))
           1 zeroSession eq_refl).
  left; reflexivity.
Defined.

(** X7.  When the channel fails to deliver a reply to the
    [ActivateSessionRequest], or delivers a reply of another type,
    [ActivateSession] returns that error (for a wrong type: "invalid
    response. Got T, want ActivateSessionResponse"), has sent only the
    [ActivateSessionRequest] with the session's own token, closes no
    session, and leaves the client record, so the active session, as it
    was. *)
Theorem ActivateSession_rejected_changes_nothing
    env st ch (a : addr) sv scf rsp :
  sechan (cl st) = Some ch ->
  nth_error (heap st) a = Some sv ->
  cfg sv = Some scf ->
  resp sv = Some rsp ->
  (forall nonce,
      Send_result env (history st ++ [activateEvent ch sv scf rsp])
      <> Deliver (ua.PActivateSessionResponse nonce)) ->
  exists err st',
    ActivateSession env (Some a) st = Ret (Some err) st'
    /\ cl st' = cl st
    /\ heap st' = heap st
    /\ added st st' [activateEvent ch sv scf rsp]
    /\ match Send_result env (history st ++ [activateEvent ch sv scf rsp]) with
       | Fail e => err = e
       | Deliver v => err = "invalid response. Got " ++ ua.typeName v
                            ++ ", want ActivateSessionResponse"
       end.
Proof.
  intros Hc Ha Hcfg Hresp Hno.
  pose proof (@ActivateSession_not_activated env st ch a sv scf rsp
                Hc Ha Hcfg Hresp) as H.
  destruct (Send_result env (history st ++ [activateEvent ch sv scf rsp]))
    as [e|v].
  - rewrite H. eexists _, _. repeat (split; [reflexivity|]). reflexivity.
  - destruct v; try (rewrite H; eexists _, _;
                     repeat (split; [reflexivity|]); reflexivity).
    exfalso. now apply (Hno ServerNonce).
Qed.

Lemma ActivateSession_rejected_changes_nothing_witness :
  exists err st',
    ActivateSession Servers.faulty (Some 1) Inputs.twoSessions
    = Ret (Some err) st'
    /\ cl st' = cl Inputs.twoSessions
    /\ err = "invalid response. Got *ua.ServiceFault, want ActivateSessionResponse".
Proof.
  destruct (@ActivateSession_rejected_changes_nothing Servers.faulty
              Inputs.twoSessions 1 1
              (newSession None
                 {| ua.SessionID := 10%Z; ua.AuthenticationToken := Some 10%Z;
                    ua.RevisedSessionTimeout := 60000%Z;
                    ua.ServerNonce := [] |})
              DefaultSessionConfig
              {| ua.SessionID := 10%Z; ua.AuthenticationToken := Some 10%Z;
                 ua.RevisedSessionTimeout := 60000%Z; ua.ServerNonce := [] |}
              eq_refl eq_refl eq_refl eq_refl)
    as (err & st' & H1 & H2 & _ & _ & H3).
  { intros nonce. vm_compute. discriminate. }
  exists err, st'. split; [exact H1|]. split; [exact H2|].
  vm_compute in H3. exact H3.
Defined.

(** X8.  On a client that holds a channel, [ActivateSession] of a session
    [CreateSession] returned always returns and keeps the channel.  When it
    returns nil, [Session()] returns that session and every later [Send]
    goes out with that session's authentication token.  When it returns an
    error, the holder contains what it contained before. *)
Theorem ActivateSession_installs_on_success env url cf scf ks ch a :
  let st := run env ks (initState (newClient url cf scf)) in
  sechan (cl st) = Some ch ->
  In a (returned st) ->
  exists e st',
    ActivateSession env (Some a) st = Ret e st'
    /\ sechan (cl st') = Some ch
    /\ (e = None ->
        GetSession st' = Ret (Some a) st'
        /\ exists sv rsp,
             nth_error (heap st') a = Some sv
             /\ resp sv = Some rsp
             /\ forall (L : Type) req (h : ua.Response -> M (L * error)) l0,
                  Send env req h l0 st'
                  = sechan_Send env (Some ch) req (ua.AuthenticationToken rsp)
                      h l0 st')
    /\ (e <> None -> session (cl st') = session (cl st)).
Proof.
  intros st Hc Hin.
  pose proof (reachable_Inv env url cf scf ks) as HI. fold st in HI.
  assert (HC : connectedTo ch (existsb invokesDial ks) [] st) by now split.
  destruct (connectedTo_ActivateSession env a HC Hin)
    as (e & st' & HA & [HI' Hc'] & Hok & Herr).
  exists e, st'. split; [exact HA|]. split; [exact Hc'|].
  split; [|exact Herr]. intros He. specialize (Hok He).
  split; [now rewrite GetSession_eq, Hok|].
  pose proof (inv_active HI' Hok) as Hin'.
  destruct (inv_returned HI' _ Hin') as (sv & Ha & _ & Hresp).
  destruct (resp sv) as [rsp|] eqn:Er; [|congruence].
  exists sv, rsp. split; [exact Ha|]. split; [exact Er|].
  intros L req h l0.
  now rewrite (Send_active_session env req h l0 st' Hok Ha Er), Hc'.
Qed.

Lemma ActivateSession_installs_on_success_witness :
  exists e st',
    ActivateSession Examples.goodEnv (Some 1)
      (run Examples.goodEnv [CallConnect; CallCreateSession None]
         Examples.start) = Ret e st'
    /\ e = None
    /\ GetSession st' = Ret (Some 1) st'.
Proof.
  destruct (@ActivateSession_installs_on_success Examples.goodEnv
              "opc.tcp://localhost:4840" None None
              [CallConnect; CallCreateSession None] 1 1 eq_refl)
    as (e & st' & H1 & _ & H2 & _).
  { vm_compute. auto. }
  exists e, st'. split; [exact H1|].
  assert (He : e = None).
  { vm_compute in H1. now injection H1 as <- _. }
  split; [exact He | exact (proj1 (H2 He))].
Defined.

(** X9.  [CreateSession] returns a session or an error, never both and
    never neither.  With an error nothing is allocated.  A returned session
    is the one new object, it carries the configuration passed in (the
    default one for nil) and the [CreateSessionResponse] the channel
    delivered for the request. *)
Theorem CreateSession_session_or_error env scf st :
  exists p e st',
    CreateSession env scf st = Ret (p, e) st'
    /\ (p = None <-> e <> None)
    /\ (p = None -> heap st' = heap st /\ returned st' = returned st)
    /\ forall a, p = Some a ->
         a = List.length (heap st)
         /\ exists rsp,
              heap st' = (heap st ++ [newSession scf rsp])%list
              /\ cfg (newSession scf rsp) = Some (orDefault scf)
              /\ resp (newSession scf rsp) = Some rsp
              /\ Send_result env (history st')
                 = Deliver (ua.PCreateSessionResponse rsp).
Proof.
  destruct (sechan (cl st)) as [ch|] eqn:Hc.
  - rewrite (CreateSession_channel env scf st Hc). unfold createOutcome.
    destruct (rand_Read_result env _) as [e|bs].
    { eexists None, (Some e), _. split; [reflexivity|].
      split; [split; [discriminate | reflexivity]|].
      split; [now split | discriminate]. }
    cbv zeta. destruct (Send_result env _) as [e|v] eqn:Es.
    { eexists None, (Some e), _. split; [reflexivity|].
      split; [split; [discriminate | reflexivity]|].
      split; [now split | discriminate]. }
    destruct v;
      try (eexists None, (Some _), _; split; [reflexivity|];
           split; [split; [discriminate | reflexivity]|];
           split; [now split | discriminate]).
    eexists (Some _), None, _. split; [reflexivity|].
    split; [split; [discriminate | congruence]|].
    split; [discriminate|].
    intros a [= <-]. split; [reflexivity|]. exists r.
    split; [reflexivity|]. split; [reflexivity|]. split; [reflexivity|].
    exact Es.
  - rewrite (CreateSession_no_channel env scf st Hc).
    eexists None, (Some _), _. split; [reflexivity|].
    split; [split; [discriminate | reflexivity]|].
    split; [now split | discriminate].
Qed.

(** What [CloseSession] leaves in the holder when it returns nil. *)
Lemma CloseSession_nil_clears env st st' :
  CloseSession env st = Ret None st' ->
  session (cl st') = atomic.OfSessionPtr None.
Proof.
  unfold CloseSession, bind at 1. rewrite GetSession_eq.
  destruct (session (cl st)) as [|p]; [discriminate|].
  unfold bind at 1.
  destruct (closeSession env p st) as [[err|] s1|msg s1]; try discriminate.
  unfold bind, session_Store, atomic_Store, ret. now intros [= <-].
Qed.

(** X10.  [CloseSession] is idempotent: once it has returned nil, calling
    it again returns nil, sends nothing and changes nothing; the same holds
    whenever no session is active. *)
Theorem CloseSession_twice env st st' :
  CloseSession env st = Ret None st' ->
  CloseSession env st' = Ret None st'
  /\ GetSession st' = Ret None st'.
Proof.
  intros H. pose proof (CloseSession_nil_clears env st H) as Hs.
  split; [now apply CloseSession_no_active_eq|].
  now rewrite GetSession_eq, Hs.
Qed.

Lemma CloseSession_twice_witness :
  exists st',
    CloseSession Examples.goodEnv Inputs.connected = Ret None st'
    /\ CloseSession Examples.goodEnv st' = Ret None st'
    /\ history st' <> history Inputs.connected.
Proof.
  eexists. split; [vm_compute; reflexivity|].
  split.
  - refine (proj1 (@CloseSession_twice Examples.goodEnv Inputs.connected _ _)).
    vm_compute; reflexivity.
  - vm_compute. discriminate.
Defined.

(** X11.  On a client that holds a channel, [GetEndpoints] returns a
    response or an error, never both and never neither: the response when the
    channel delivers a [GetEndpointsResponse], the channel's error when the
    exchange fails, and "invalid response: T" for a reply of another type.
    It sends exactly one [GetEndpointsRequest] for the client's endpoint URL,
    with a nil token when no session is active and with the active session's
    token otherwise, and leaves the client record and the sessions as they
    were. *)
Theorem GetEndpoints_response_or_error env url cf scf ks ch :
  let st := run env ks (initState (newClient url cf scf)) in
  sechan (cl st) = Some ch ->
  exists r e st' tok,
    GetEndpoints env st = Ret (r, e) st'
    /\ (r = None <-> e <> None)
    /\ cl st' = cl st
    /\ heap st' = heap st
    /\ added st st'
         [EvSend ch (ua.GetEndpointsRequest (EndpointURL (cl st))) tok]
    /\ (session (cl st) = atomic.OfSessionPtr None -> tok = None)
    /\ (forall a sv,
           session (cl st) = atomic.OfSessionPtr (Some a) ->
           nth_error (heap st) a = Some sv -> tok = tokenOf sv)
    /\ match Send_result env (history st') with
       | Fail err => e = Some err
       | Deliver (ua.PGetEndpointsResponse x) => r = Some x
       | Deliver v => e = Some ("invalid response: " ++ ua.typeName v)
       end.
Proof.
  intros st Hc.
  pose proof (reachable_Inv env url cf scf ks) as HI. fold st in HI.
  assert (F : forall tok,
             GetEndpoints env st
             = sechan_Send env (Some ch)
                 (ua.GetEndpointsRequest (EndpointURL (cl st))) tok
                 (fun v =>
                    match v with
                    | ua.PGetEndpointsResponse r => ret (Some r, None)
                    | _ => ret (None, Some ("invalid response: "
                                            ++ ua.typeName v))
                    end) None st ->
             (session (cl st) = atomic.OfSessionPtr None -> tok = None) ->
             (forall a sv,
                 session (cl st) = atomic.OfSessionPtr (Some a) ->
                 nth_error (heap st) a = Some sv -> tok = tokenOf sv) ->
             exists r e st' tok,
               GetEndpoints env st = Ret (r, e) st'
               /\ (r = None <-> e <> None)
               /\ cl st' = cl st
               /\ heap st' = heap st
               /\ added st st'
                    [EvSend ch (ua.GetEndpointsRequest (EndpointURL (cl st)))
                       tok]
               /\ (session (cl st) = atomic.OfSessionPtr None -> tok = None)
               /\ (forall a sv,
                      session (cl st) = atomic.OfSessionPtr (Some a) ->
                      nth_error (heap st) a = Some sv -> tok = tokenOf sv)
               /\ match Send_result env (history st') with
                  | Fail err => e = Some err
                  | Deliver (ua.PGetEndpointsResponse x) => r = Some x
                  | Deliver v =>
                      e = Some ("invalid response: " ++ ua.typeName v)
                  end).
  { intros tok E H1 H2. rewrite E, sechan_Send_eq.
    destruct (Send_result env (history st ++ _)) as [err|v] eqn:Es.
    - exists None, (Some err), (addEvents
        [EvSend ch (ua.GetEndpointsRequest (EndpointURL (cl st))) tok] st), tok.
      split; [reflexivity|].
      split; [split; [discriminate | reflexivity]|].
      repeat (split; [first [reflexivity | assumption]|]).
      cbn [history addEvents]. now rewrite Es.
    - destruct v;
        try (eexists None, (Some _), (addEvents _ st), tok;
             split; [reflexivity|];
             split; [split; [discriminate | reflexivity]|];
             repeat (split; [first [reflexivity | assumption]|]);
             cbn [history addEvents]; now rewrite Es).
      eexists (Some _), None, (addEvents _ st), tok.
      split; [reflexivity|].
      split; [split; [discriminate | congruence]|].
      repeat (split; [first [reflexivity | assumption]|]).
      cbn [history addEvents]. now rewrite Es. }
  destruct (Inv_holder HI Hc) as [Hs|(a & sv & r & Hs & _ & Ha & _ & Hr)].
  - apply (F None).
    + unfold GetEndpoints, bind at 1, gets.
      now rewrite (Send_no_session env _ _ _ st Hs), Hc.
    + reflexivity.
    + intros a sv E. congruence.
  - apply (F (ua.AuthenticationToken r)).
    + unfold GetEndpoints, bind at 1, gets.
      now rewrite (Send_active_session env _ _ _ st Hs Ha Hr), Hc.
    + intros E. congruence.
    + intros a' sv' E Ha'. rewrite Hs in E. injection E as <-.
      rewrite Ha in Ha'. injection Ha' as <-. unfold tokenOf. now rewrite Hr.
Qed.

Lemma GetEndpoints_response_or_error_witness :
  sechan (cl Inputs.connected) = Some 1
  /\ exists r e st' tok,
       GetEndpoints Examples.goodEnv Inputs.connected = Ret (r, e) st'
       /\ (r = None <-> e <> None)
       /\ tok = Some 6%Z
       /\ added Inputs.connected st'
            [EvSend 1 (ua.GetEndpointsRequest "opc.tcp://localhost:4840") tok].
Proof.
  split; [reflexivity|].
  destruct (@GetEndpoints_response_or_error Examples.goodEnv
              "opc.tcp://localhost:4840" None None [CallConnect] 1 eq_refl)
    as (r & e & st' & tok & H1 & H2 & _ & _ & H3 & _ & H4 & _).
  exists r, e, st', tok. split; [exact H1|]. split; [exact H2|].
  split; [|exact H3].
  exact (H4 0 _ eq_refl eq_refl).
Defined.

(** X12.  A successful [Connect] leaves the client with an active session
    whose authentication token is attached to every request [Send] forwards
    afterwards, and [Session()] returns that session. *)
Theorem Connect_then_Send_carries_token env url cf scf ks st' :
  let st := run env ks (initState (newClient url cf scf)) in
  sechan (cl st) = None ->
  Connect env st = Ret None st' ->
  exists ch a sv rsp,
    sechan (cl st') = Some ch
    /\ GetSession st' = Ret (Some a) st'
    /\ nth_error (heap st) a = None
    /\ nth_error (heap st') a = Some sv
    /\ resp sv = Some rsp
    /\ forall (L : Type) req (h : ua.Response -> M (L * error)) l0,
         Send env req h l0 st'
         = sechan_Send env (Some ch) req (ua.AuthenticationToken rsp) h l0 st'.
Proof.
  intros st Hc HConn.
  pose proof (reachable_Inv env url cf scf ks) as HI. fold st in HI.
  pose proof (@hoare_Connect env _ _ st HI) as HK. rewrite HConn in HK.
  destruct (Connect_outcome env HI Hc) as (e & s & E & Hok & _).
  rewrite HConn in E. injection E as <- <-.
  destruct (Hok eq_refl) as (ch & a & Hc' & Hs & Hin & Hfresh).
  destruct (inv_returned HK _ Hin) as (sv & Ha & _ & Hresp).
  destruct (resp sv) as [rsp|] eqn:Er; [|congruence].
  exists ch, a, sv, rsp. split; [exact Hc'|].
  split; [now rewrite GetSession_eq, Hs|].
  split; [exact Hfresh|]. split; [exact Ha|]. split; [exact Er|].
  intros L req h l0.
  now rewrite (Send_active_session env req h l0 st' Hs Ha Er), Hc'.
Qed.

Lemma Connect_then_Send_carries_token_witness :
  exists ch a sv rsp,
    sechan (cl Inputs.connected) = Some ch
    /\ GetSession Inputs.connected = Ret (Some a) Inputs.connected
    /\ nth_error (heap Inputs.connected) a = Some sv
    /\ resp sv = Some rsp
    /\ ua.AuthenticationToken rsp = Some 6%Z.
Proof.
  destruct (@Connect_then_Send_carries_token Examples.goodEnv
              "opc.tcp://localhost:4840" None None [] Inputs.connected
              eq_refl)
    as (ch & a & sv & rsp & H1 & H2 & _ & H3 & H4 & _).
  { vm_compute. reflexivity. }
  exists ch, a, sv, rsp. split; [exact H1|]. split; [exact H2|].
  split; [exact H3|]. split; [exact H4|].
  vm_compute in H2. injection H2 as <-.
  vm_compute in H3. injection H3 as <-.
  vm_compute in H4. now injection H4 as <-.
Defined.

(** ** The package-level [GetEndpoints] *)

Lemma Close_no_session env st ch :
  sechan (cl st) = Some ch ->
  session (cl st) = atomic.OfSessionPtr None ->
  Close env st
  = Ret (chan_Close_result env (history st ++ [EvChanClose ch]))
        (addEvents [EvChanClose ch] st).
Proof.
  intros Hc Hs. unfold Close, bind at 1.
  rewrite (CloseSession_no_active_eq env st Hs).
  unfold bind, gets. now rewrite Hc.
Qed.

(** The result [GetEndpoints] computes from what the channel did. *)
Lemma GetEndpoints_no_session env st ch :
  sechan (cl st) = Some ch ->
  session (cl st) = atomic.OfSessionPtr None ->
  let ev := EvSend ch (ua.GetEndpointsRequest (EndpointURL (cl st))) None in
  GetEndpoints env st
  = Ret (match Send_result env (history st ++ [ev]) with
         | Fail e => (None, Some e)
         | Deliver (ua.PGetEndpointsResponse r) => (Some r, None)
         | Deliver v => (None, Some ("invalid response: " ++ ua.typeName v))
         end)
        (addEvents [ev] st).
Proof.
  intros Hc Hs ev. unfold GetEndpoints, bind at 1, gets.
  rewrite (Send_no_session env _ _ _ st Hs), Hc, sechan_Send_eq. fold ev.
  destruct (Send_result env (history st ++ [ev])) as [e|v]; [reflexivity|].
  now destruct v.
Qed.

(** X13.  The package-level [GetEndpoints] always returns.  With an error
    it returns no endpoints.  The only request it ever sends is a
    [GetEndpointsRequest] for the given endpoint, with a nil token.  If it
    got a channel open, the last thing it did was to close that channel,
    whatever the request came to; if it did not, it sent nothing and
    returned an error. *)
Theorem opcua_GetEndpoints_closes_its_channel env endpoint w :
  exists eps e st' evs,
    opcua_GetEndpoints env endpoint w = Ret (eps, e) st'
    /\ added w st' evs
    /\ (e <> None -> eps = [])
    /\ (forall c req tok, In (EvSend c req tok) evs ->
          req = ua.GetEndpointsRequest endpoint /\ tok = None)
    /\ match sechan (cl st') with
       | Some ch => finalEvent evs = Some (EvChanClose ch)
       | None => e <> None /\ forall c req tok, ~ In (EvSend c req tok) evs
       end.
Proof.
  unfold opcua_GetEndpoints, bind at 1, modify.
  set (s0 := {| cl := newClient endpoint None None; heap := heap w;
                history := history w; returned := returned w |}).
  unfold bind at 1, gets.
  change (Config (cl s0)) with (@None uasc.Config).
  assert (Hc : sechan (cl s0) = None) by reflexivity.
  assert (Hi : history (afterOnce s0) = history w) by reflexivity.
  set (evD := EvDial (EndpointURL (cl s0))).
  set (cn := List.length (history s0 ++ [evD])).
  set (evN := EvNewSecureChannel (EndpointURL (cl s0)) cn
                (dialConfig env None)).
  unfold bind at 1.
  destruct (uacp_Dial_result env (history s0 ++ [evD])) as [e|] eqn:E1.
  { rewrite (Dial_transport_fails env None s0 Hc E1).
    eexists [], (Some e), _, [evD]. split; [reflexivity|].
    split; [reflexivity|]. split; [reflexivity|].
    split; [intros c req tok [H|[]]; discriminate|].
    cbn. split; [discriminate|]. intros c req tok [H|[]]; discriminate. }
  destruct (NewSecureChannel_result env (history s0 ++ [evD; evN]))
    as [e|] eqn:E2.
  { rewrite (Dial_channel_fails env None s0 Hc E1 E2).
    eexists [], (Some e), _, [evD; evN; EvConnClose cn].
    split; [reflexivity|]. split; [reflexivity|]. split; [reflexivity|].
    split; [intros c req tok [H|[H|[H|[]]]]; discriminate|].
    cbn. split; [discriminate|].
    intros c req tok [H|[H|[H|[]]]]; discriminate. }
  destruct (Open_result env (history s0 ++ [evD; evN; EvOpen cn]))
    as [e|] eqn:E3.
  { rewrite (Dial_open_fails env None s0 Hc E1 E2 E3).
    eexists [], (Some e), _, [evD; evN; EvOpen cn; EvConnClose cn].
    split; [reflexivity|]. split; [reflexivity|]. split; [reflexivity|].
    split; [intros c req tok [H|[H|[H|[H|[]]]]]; discriminate|].
    cbn. split; [discriminate|].
    intros c req tok [H|[H|[H|[H|[]]]]]; discriminate. }
  rewrite (Dial_succeeds env None s0 Hc E1 E2 E3). fold evD cn evN.
  set (s1 := withClient (setSechan (Some cn))
               (addEvents [evD; evN; EvOpen cn] (afterOnce s0))).
  assert (Hc1 : sechan (cl s1) = Some cn) by reflexivity.
  assert (Hs1 : session (cl s1) = atomic.OfSessionPtr None) by reflexivity.
  unfold bind at 1.
  rewrite (GetEndpoints_no_session env s1 Hc1 Hs1).
  set (evS := EvSend cn (ua.GetEndpointsRequest (EndpointURL (cl s1))) None).
  set (s2 := addEvents [evS] s1).
  assert (Hc2 : sechan (cl s2) = Some cn) by reflexivity.
  assert (Hs2 : session (cl s2) = atomic.OfSessionPtr None) by reflexivity.
  assert (Hsend : forall c req tok,
             In (EvSend c req tok)
                [evD; evN; EvOpen cn; evS; EvChanClose cn] ->
             req = ua.GetEndpointsRequest endpoint /\ tok = None).
  { intros c req tok [H|[H|[H|[H|[H|[]]]]]]; try discriminate.
    injection H as _ <- <-. now split. }
  assert (Hhist : history (addEvents [EvChanClose cn] s2)
                  = (history w ++ [evD; evN; EvOpen cn; evS; EvChanClose cn])%list).
  { cbn [history addEvents s2 s1 withClient]. rewrite Hi.
    now rewrite <- !app_assoc. }
  destruct (Send_result env (history s1 ++ [evS])) as [e|v].
  { unfold bind at 1. rewrite (Close_no_session env s2 Hc2 Hs2).
    eexists [], (Some e), _, _. split; [reflexivity|].
    split; [exact Hhist|]. split; [reflexivity|]. split; [exact Hsend|].
    reflexivity. }
  destruct v;
    try (unfold bind at 1; rewrite (Close_no_session env s2 Hc2 Hs2);
         eexists [], (Some _), _, _; split; [reflexivity|];
         split; [exact Hhist|]; split; [reflexivity|];
         split; [exact Hsend|]; reflexivity).
  unfold bind at 1. rewrite (Close_no_session env s2 Hc2 Hs2).
  eexists (ua.Endpoints r), None, _, _. split; [reflexivity|].
  split; [exact Hhist|]. split; [congruence|]. split; [exact Hsend|].
  reflexivity.
Qed.

(** ** The request [Read] sends *)

Section ReadRequestProperties.

Variable Fields : Type.
Variable QualifiedName : Type.
Variable zeroQualifiedName : QualifiedName.
Variable float64 : Type.
Variable AttributeIDValue : Z.

Local Abbreviation RV := (ReadValueID Fields QualifiedName).
Local Abbreviation defaults := (withDefaults zeroQualifiedName AttributeIDValue).
Local Abbreviation clone := (cloneNodes zeroQualifiedName AttributeIDValue).

Lemma cloneNodes_spec (rvs : list (option RV)) :
  match clone rvs with
  | Some out =>
      List.length out = List.length rvs
      /\ forall i,
           match nth_error rvs i with
           | Some (Some rv) => nth_error out i = Some (Some (defaults rv))
           | Some None => False
           | None => nth_error out i = None
           end
  | None => In None rvs
  end.
Proof.
  induction rvs as [|[rv|] rest IH]; simpl.
  - split; [reflexivity|]. now intros [|i].
  - destruct (clone rest) as [out|].
    + destruct IH as [Hl Hi]. split; [simpl; now rewrite Hl|].
      intros [|i]; simpl; [reflexivity | apply Hi].
    + now right.
  - now left.
Qed.

Lemma withDefaults_idempotent (rv : RV) : defaults (defaults rv) = defaults rv.
Proof.
  destruct rv as [aid enc other]. unfold withDefaults; simpl.
  f_equal.
  - destruct (aid =? 0)%Z eqn:E; [|now rewrite E].
    now destruct (AttributeIDValue =? 0)%Z eqn:E'; [apply Z.eqb_eq in E'|].
  - now destruct enc.
Qed.

Lemma cloneNodes_idempotent (rvs out : list (option RV)) :
  clone rvs = Some out -> clone out = Some out.
Proof.
  revert out. induction rvs as [|[rv|] rest IH]; simpl; intros out H.
  - now injection H as <-.
  - destruct (clone rest) as [rest'|]; [|discriminate].
    injection H as <-. simpl. rewrite (IH rest' eq_refl).
    now rewrite withDefaults_idempotent.
  - discriminate.
Qed.

End ReadRequestProperties.

(** X14.  The first part of [Read], which builds the request handed to
    [Send].  When the caller's request and all its entries are non-nil, the
    request built has as many entries as the caller's, in the same order;
    each is a non-nil copy of the caller's entry in which a zero
    [AttributeID] has become [ua.AttributeIDValue] and a nil [DataEncoding]
    has become the empty qualified name, all other fields and [MaxAge] and
    [TimestampsToReturn] being kept.  Building the request fails, by a nil
    dereference before [Send] is reached, exactly when the request or one
    of its entries is nil.  The call of [Send] that follows is not part of
    this property. *)
Theorem Read_request_fills_defaults
    (Fields QualifiedName float64 : Type) (zero : QualifiedName)
    (AttributeIDValue : Z)
    (req : option (ReadRequest Fields QualifiedName float64)) :
  match Read_request zero AttributeIDValue req with
  | Some out =>
      exists r,
        req = Some r
        /\ MaxAge out = MaxAge r
        /\ TimestampsToReturn out = TimestampsToReturn r
        /\ List.length (NodesToRead out) = List.length (NodesToRead r)
        /\ ~ In None (NodesToRead r)
        /\ forall i rv,
             nth_error (NodesToRead r) i = Some (Some rv) ->
             exists rc,
               nth_error (NodesToRead out) i = Some (Some rc)
               /\ AttributeID rc
                  = (if (AttributeID rv =? 0)%Z then AttributeIDValue
                     else AttributeID rv)
               /\ DataEncoding rc
                  = Some (match DataEncoding rv with
                          | None => zero
                          | Some q => q
                          end)
               /\ otherFields rc = otherFields rv
  | None =>
      req = None \/ exists r, req = Some r /\ In None (NodesToRead r)
  end.
Proof.
  destruct req as [r|]; simpl; [|now left].
  pose proof (cloneNodes_spec zero AttributeIDValue (NodesToRead r)) as H.
  destruct (cloneNodes zero AttributeIDValue (NodesToRead r)) as [out|].
  - destruct H as [Hl Hi]. exists r. simpl.
    repeat (split; [reflexivity|]). split; [exact Hl|].
    split.
    { intros Hin. apply In_nth_error in Hin as [i Hn].
      specialize (Hi i). now rewrite Hn in Hi. }
    intros i rv Hrv. specialize (Hi i). rewrite Hrv in Hi.
    eexists. split; [exact Hi|]. simpl.
    split; [reflexivity|]. split; [now destruct (DataEncoding rv) | reflexivity].
  - right. exists r. now split.
Qed.

(** X15.  Filling in the defaults is idempotent: the request [Read] sends
    is one that [Read] would send unchanged.  An entry that already names an
    attribute and an encoding is sent as it is. *)
Theorem Read_request_idempotent
    (Fields QualifiedName float64 : Type) (zero : QualifiedName)
    (AttributeIDValue : Z)
    (req : option (ReadRequest Fields QualifiedName float64)) out :
  Read_request zero AttributeIDValue req = Some out ->
  Read_request zero AttributeIDValue (Some out) = Some out
  /\ forall rv : ReadValueID Fields QualifiedName,
       AttributeID rv <> 0%Z -> DataEncoding rv <> None ->
       withDefaults zero AttributeIDValue rv = rv.
Proof.
  intros H. split.
  - destruct req as [r|]; [|discriminate]. simpl in H.
    destruct (cloneNodes zero AttributeIDValue (NodesToRead r)) as [rvs|] eqn:E;
      [|discriminate].
    injection H as <-. simpl.
    now rewrite (cloneNodes_idempotent zero AttributeIDValue _ E).
  - intros [aid enc other] Ha He. unfold withDefaults; simpl in *.
    apply Z.eqb_neq in Ha. rewrite Ha.
    destruct enc; [reflexivity | congruence].
Qed.

Lemma Read_request_idempotent_witness :
  Read_request (Fields := string) (float64 := Z) "" 13%Z
    (Some {| MaxAge := 0%Z; TimestampsToReturn := 2%Z;
             NodesToRead :=
               [Some {| AttributeID := 0%Z; DataEncoding := None;
                        otherFields := "ns=2;s=Temperature" |};
                Some {| AttributeID := 4%Z; DataEncoding := Some "Default Binary";
                        otherFields := "i=2258" |}] |})
  = Some {| MaxAge := 0%Z; TimestampsToReturn := 2%Z;
            NodesToRead :=
              [Some {| AttributeID := 13%Z; DataEncoding := Some "";
                       otherFields := "ns=2;s=Temperature" |};
               Some {| AttributeID := 4%Z; DataEncoding := Some "Default Binary";
                       otherFields := "i=2258" |}] |}
  /\ Read_request (Fields := string) (float64 := Z) "" 13%Z
       (Some {| MaxAge := 0%Z; TimestampsToReturn := 2%Z;
                NodesToRead :=
                  [Some {| AttributeID := 13%Z; DataEncoding := Some "";
                           otherFields := "ns=2;s=Temperature" |};
                   Some {| AttributeID := 4%Z;
                           DataEncoding := Some "Default Binary";
                           otherFields := "i=2258" |}] |})
     = Some {| MaxAge := 0%Z; TimestampsToReturn := 2%Z;
               NodesToRead :=
                 [Some {| AttributeID := 13%Z; DataEncoding := Some "";
                          otherFields := "ns=2;s=Temperature" |};
                  Some {| AttributeID := 4%Z;
                          DataEncoding := Some "Default Binary";
                          otherFields := "i=2258" |}] |}.
Proof.
  split; [reflexivity|].
  refine (proj1 (@Read_request_idempotent string string Z "" 13%Z
                   (Some {| MaxAge := 0%Z; TimestampsToReturn := 2%Z;
                            NodesToRead :=
                              [Some {| AttributeID := 0%Z; DataEncoding := None;
                                       otherFields := "ns=2;s=Temperature" |};
                               Some {| AttributeID := 4%Z;
                                       DataEncoding := Some "Default Binary";
                                       otherFields := "i=2258" |}] |})
                   _ eq_refl)).
Defined.

(** X16.  A [Connect] that fails after the channel was opened leaves the
    closed channel in the client: from then on, whatever else is called,
    every [Connect] on this client fails with "already connected" without
    doing anything.  Only a [Connect] that failed in [Dial] can be
    retried. *)
Theorem failed_Connect_cannot_be_retried env url cf scf ks err st' ch ks' :
  let st := run env ks (initState (newClient url cf scf)) in
  sechan (cl st) = None ->
  Connect env st = Ret (Some err) st' ->
  sechan (cl st') = Some ch ->
  finalEvent (history st') = Some (EvChanClose ch)
  /\ Connect env (run env ks' st')
     = Ret (Some errAlreadyConnected) (run env ks' st').
Proof.
  intros st Hc HConn Hc'.
  pose proof (reachable_Inv env url cf scf ks) as HI. fold st in HI.
  pose proof (@hoare_Connect env _ _ st HI) as HK. rewrite HConn in HK.
  split.
  - destruct (Connect_outcome env HI Hc) as (e & s & E & _ & Hfail).
    rewrite HConn in E. injection E as <- <-.
    destruct Hfail as [Hn|(ch' & Hch' & Hl)]; [discriminate | congruence |].
    rewrite Hc' in Hch'. now injection Hch' as <-.
  - assert (HC : connectedTo ch true [] (run env ks' st'))
      by (apply connectedTo_run; now split).
    unfold Connect, bind, gets. now rewrite (proj2 HC).
Qed.

Lemma failed_Connect_cannot_be_retried_witness :
  exists st',
    Connect Servers.faulty Examples.start
    = Ret (Some "invalid response. Got *ua.ServiceFault, want CreateSessionResponse")
          st'
    /\ Connect Servers.faulty (run Servers.faulty [CallClose] st')
       = Ret (Some errAlreadyConnected) (run Servers.faulty [CallClose] st').
Proof.
  eexists. split; [vm_compute; reflexivity|].
  refine (proj2 (@failed_Connect_cannot_be_retried Servers.faulty
                   "opc.tcp://localhost:4840" None None [] _ _ 1 [CallClose]
                   eq_refl _ _)).
  - vm_compute; reflexivity.
  - reflexivity.
Defined.

(** X17.  [Close] on a client that holds a channel sends a
    [CloseSessionRequest] only when a session is active, with that session's
    token, and then closes the channel: these are all the events it adds, in
    this order, and what it returns is the result of closing the channel. *)
Theorem Close_sends_close_then_closes_channel env url cf scf ks ch :
  let st := run env ks (initState (newClient url cf scf)) in
  sechan (cl st) = Some ch ->
  exists e st',
    Close env st = Ret e st'
    /\ e = chan_Close_result env (history st')
    /\ heap st' = heap st
    /\ (session (cl st) = atomic.OfSessionPtr None ->
        added st st' [EvChanClose ch])
    /\ (forall a sv,
           session (cl st) = atomic.OfSessionPtr (Some a) ->
           nth_error (heap st) a = Some sv ->
           added st st'
             [EvSend ch (ua.CloseSessionRequest true) (tokenOf sv);
              EvChanClose ch]).
Proof.
  intros st Hc.
  pose proof (reachable_Inv env url cf scf ks) as HI. fold st in HI.
  destruct (Inv_holder HI Hc) as [Hs|(a & sv & r & Hs & _ & Ha & _ & Hr)].
  - rewrite (Close_no_session env st Hc Hs). eexists _, _.
    split; [reflexivity|]. split; [reflexivity|]. split; [reflexivity|].
    split; [reflexivity|]. intros a sv E. congruence.
  - unfold Close, bind at 1.
    rewrite (CloseSession_active_eq env st Hc Hs Ha Hr).
    set (ev := EvSend ch (ua.CloseSessionRequest true)
                 (ua.AuthenticationToken r)).
    assert (Htok : forall a' sv',
               session (cl st) = atomic.OfSessionPtr (Some a') ->
               nth_error (heap st) a' = Some sv' ->
               tokenOf sv' = ua.AuthenticationToken r).
    { intros a' sv' E Ha'. rewrite Hs in E. injection E as <-.
      rewrite Ha in Ha'. injection Ha' as <-. unfold tokenOf. now rewrite Hr. }
    destruct (closeResult env (history st ++ [ev])) as [err|];
      unfold bind, gets; cbn [cl addEvents withClient setSession sechan];
      rewrite Hc; cbn [sechan_Close bind emit modify gets ret];
      eexists _, _; (split; [reflexivity|]);
      (split; [reflexivity|]); (split; [reflexivity|]);
      (split; [intros E; congruence|]);
      intros a' sv' E Ha'; rewrite (Htok a' sv' E Ha');
      unfold added, addEvents, withClient; cbn [history];
      rewrite <- ?app_assoc; reflexivity.
Qed.

Lemma Close_sends_close_then_closes_channel_witness :
  sechan (cl Inputs.connected) = Some 1
  /\ exists e st',
       Close Examples.goodEnv Inputs.connected = Ret e st'
       /\ added Inputs.connected st'
            [EvSend 1 (ua.CloseSessionRequest true) (Some 6%Z);
             EvChanClose 1].
Proof.
  split; [reflexivity|].
  destruct (@Close_sends_close_then_closes_channel Examples.goodEnv
              "opc.tcp://localhost:4840" None None [CallConnect] 1 eq_refl)
    as (e & st' & H1 & _ & _ & _ & H2).
  exists e, st'. split; [exact H1|].
  exact (H2 0 _ eq_refl eq_refl).
Defined.

(** X18.  Replacing the active session: when the server accepts the
    [ActivateSessionRequest] and then the [CloseSessionRequest] for the
    session active before, [ActivateSession] returns nil, the new session is
    the active one, and exactly these two requests were sent, the first with
    the new session's token and the second with the prior session's. *)
Theorem ActivateSession_replaces_active_session
    env url cf scf ks ch (a p : addr) sv pv nonce :
  let st := run env ks (initState (newClient url cf scf)) in
  sechan (cl st) = Some ch ->
  In a (returned st) ->
  nth_error (heap st) a = Some sv ->
  session (cl st) = atomic.OfSessionPtr (Some p) ->
  nth_error (heap st) p = Some pv ->
  let evA := EvSend ch
               (ua.ActivateSessionRequest (signatureToSend sv) []
                  (uasc.LocaleIDs (orDefault (cfg sv)))
                  (ua.NewExtensionObject
                     (uasc.UserIdentityToken (orDefault (cfg sv))))
                  (uasc.UserTokenSignature (orDefault (cfg sv))))
               (tokenOf sv) in
  let evC := EvSend ch (ua.CloseSessionRequest true) (tokenOf pv) in
  Send_result env (history st ++ [evA])
  = Deliver (ua.PActivateSessionResponse nonce) ->
  Send_result env (history st ++ [evA; evC])
  = Deliver ua.PCloseSessionResponse ->
  exists st',
    ActivateSession env (Some a) st = Ret None st'
    /\ added st st' [evA; evC]
    /\ GetSession st' = Ret (Some a) st'
    /\ heap st' = heap st.
Proof.
  intros st Hc Hin Ha Hs Hp evA evC HA HCl.
  pose proof (reachable_Inv env url cf scf ks) as HI. fold st in HI.
  destruct (inv_returned HI _ Hin) as (sv' & Ha' & Hcfg & Hresp).
  rewrite Ha in Ha'. injection Ha' as <-.
  destruct (cfg sv) as [sc|] eqn:Ecfg; [|congruence].
  destruct (resp sv) as [rsp|] eqn:Eresp; [|congruence].
  pose proof (inv_active HI Hs) as Hinp.
  destruct (inv_returned HI _ Hinp) as (pv' & Hp' & _ & Hpresp).
  rewrite Hp in Hp'. injection Hp' as <-.
  destruct (resp pv) as [pr|] eqn:Epr; [|congruence].
  assert (EA : evA = activateEvent ch sv sc rsp).
  { unfold evA, activateEvent, tokenOf. now rewrite Eresp. }
  assert (EC : evC = closePriorEvent ch pr).
  { unfold evC, closePriorEvent, tokenOf. now rewrite Epr. }
  rewrite EA, EC in *.
  assert (Hclose : closeResult env
                     (history st ++ [activateEvent ch sv sc rsp;
                                     closePriorEvent ch pr]) = None).
  { unfold closeResult. now rewrite HCl. }
  rewrite (@ActivateSession_prior_closed env st ch a sv sc rsp
             Hc Ha Ecfg Eresp nonce HA p pv pr Hs Hp Epr Hclose).
  eexists. split; [reflexivity|]. split; [reflexivity|].
  split; [now rewrite GetSession_eq | reflexivity].
Qed.

Lemma ActivateSession_replaces_active_session_witness :
  exists st',
    ActivateSession Examples.goodEnv (Some 1)
      (run Examples.goodEnv [CallConnect; CallCreateSession None]
         Examples.start) = Ret None st'
    /\ GetSession st' = Ret (Some 1) st'
    /\ exists act,
         added (run Examples.goodEnv [CallConnect; CallCreateSession None]
                  Examples.start) st'
           [EvSend 1 act (Some 10%Z);
            EvSend 1 (ua.CloseSessionRequest true) (Some 6%Z)].
Proof.
  destruct (@ActivateSession_replaces_active_session Examples.goodEnv
              "opc.tcp://localhost:4840" None None
              [CallConnect; CallCreateSession None] 1 1 0
              (newSession None
                 {| ua.SessionID := 10%Z; ua.AuthenticationToken := Some 10%Z;
                    ua.RevisedSessionTimeout := 60000%Z;
                    ua.ServerNonce := [] |})
              (newSession None
                 {| ua.SessionID := 6%Z; ua.AuthenticationToken := Some 6%Z;
                    ua.RevisedSessionTimeout := 60000%Z;
                    ua.ServerNonce := [] |})
              [] eq_refl)
    as (st' & H1 & H2 & H3 & _);
    try reflexivity.
  { vm_compute. auto. }
  exists st'. split; [exact H1|]. split; [exact H3|].
  eexists. exact H2.
Defined.
